(** * OED group model ([src/server/models/Group.js]) and meter update cycle

    A shallow embedding of the [Group] class of the Open Energy Dashboard
    server.  Every method of the class is an [async] function that talks to
    PostgreSQL through a pg-promise connection ([conn().one], [conn().any],
    [conn().none]) with a statement loaded by [sqlFile].  The methods are
    embedded in a state-and-rejection monad over a heap made of the receiver
    object [this], the database behind the connection and the log of the
    calls issued on the connection. *)

From stdpp Require Import base relations gmap list strings.

Open Scope Z_scope.

(** ** JavaScript values and objects *)

(** The values that travel between the model objects and the connection. *)
Inductive jsval :=
| JUndefined
| JBool (b : bool)
| JNum (n : Z)
| JStr (s : string).

Global Instance jsval_eq_dec : EqDecision jsval.
Proof. solve_decision. Defined.

(** A plain object (a query's parameters, a result row) is a list of
    properties; reading a missing property gives [undefined]. *)
Definition obj := list (string * jsval).

Fixpoint prop (o : obj) (k : string) : jsval :=
  match o with
  | [] => JUndefined
  | (k', v) :: o' => if decide (k' = k) then v else prop o' k
  end.

(** [class Group]: [constructor(id, name) { this.id = id; this.name = name; }] *)
Record Group := mkGroup { id : jsval; name : jsval }.

Global Instance Group_eq_dec : EqDecision Group.
Proof. solve_decision. Defined.

(** The receiver passed as the parameter object of a statement. *)
Definition Group_obj (g : Group) : obj := [("id", id g); ("name", name g)].

(** The part of a [Meter] the group model reads: [meter.id]. *)
Record MeterRef := mkMeterRef { meter_ref_id : jsval }.

(** ** Statements and the connection *)

(** The statements named by [sqlFile(...)] in Group.js, and the by-id lookup
    of the meter registry. *)
Inductive sqlFile :=
| insert_new_group
| get_group_by_name
| get_group_by_id
| get_all_groups
| get_immediate_meters_by_group_id
| get_immediate_groups_by_group_id
| associate_child_group_with_parent_group
| associate_child_meter_with_parent_group
| get_deep_groups_by_group_id
| get_deep_meters_by_group_id
| rename_group
| disown_child_group
| disown_child_meter
| get_parents_by_group_id
| delete_group
| get_meter_by_id.

Global Instance sqlFile_eq_dec : EqDecision sqlFile.
Proof. solve_decision. Defined.

(** pg-promise's result expectations. *)
Inductive method := One | Any | None_.

Global Instance method_eq_dec : EqDecision method.
Proof. solve_decision. Defined.

(** A rejection raised by the database itself. *)
Inductive dberror :=
| Conflict
| DbFailure (msg : string).

(** pg-promise's [QueryResultError] codes. *)
Inductive qrec := noData | multiple | notEmpty.

(** What an [async] method can reject with. *)
Inductive error :=
| JsError (msg : string)
| QueryResultError (code : qrec)
| DbError (e : dberror).

(** The spec's name for the rejection of a by-id lookup that finds no row. *)
Definition NotFound : error := QueryResultError noData.

Inductive outcome (A : Type) :=
| Resolved (a : A)
| Rejected (e : error).
Arguments Resolved {A} a.
Arguments Rejected {A} e.

Definition is_resolved {A} (o : outcome A) : bool :=
  match o with Resolved _ => true | Rejected _ => false end.

(** One call on the connection: the method, the statement, the parameters. *)
Record call := mkCall { call_method : method; call_file : sqlFile; call_params : obj }.

Section Connection.
(** The database and the meaning of each statement on it: the rows it
    returns and the database afterwards, or the database's rejection (a
    rejected statement leaves the database as it was). *)
Context {DB : Type}.
Variable exec : sqlFile → obj → DB → dberror + (list obj * DB).

(** What an [async] method of a group can read and change: the receiver,
    the database behind [conn()], and the calls made on the connection. *)
Record heap := mkHeap { this : Group; store : DB; calls : list call }.

(** An [async] computation: it settles, resolved or rejected, and leaves a
    heap.  [let* x := m in k] is [const x = await m; k]: a rejection of [m]
    is the rejection of the whole. *)
Definition M (A : Type) : Type := heap → outcome A * heap.

Definition ret {A} (a : A) : M A := λ h, (Resolved a, h).
Definition throw {A} (e : error) : M A := λ h, (Rejected e, h).
Definition bind {A B} (m : M A) (k : A → M B) : M B :=
  λ h, match m h with
       | (Resolved a, h') => k a h'
       | (Rejected e, h') => (Rejected e, h')
       end.

Notation "'let*' x ':=' m 'in' k" := (bind m (λ x, k))
  (at level 10, x name, m at level 100, k at level 200).

(** Reading [this], and the assignment [this.id = v]. *)
Definition get_this : M Group := λ h, (Resolved (this h), h).
Definition set_this_id (v : jsval) : M unit :=
  λ h, (Resolved (), mkHeap (mkGroup v (name (this h))) (store h) (calls h)).

(** Running a statement: the call is logged, then the database answers. *)
Definition query (m : method) (f : sqlFile) (p : obj) : M (list obj) :=
  λ h, let log := calls h ++ [mkCall m f p] in
       match exec f p (store h) with
       | inl e => (Rejected (DbError e), mkHeap (this h) (store h) log)
       | inr (rows, db') => (Resolved rows, mkHeap (this h) db' log)
       end.

(** [conn().one]: exactly one row is expected. *)
Definition one (f : sqlFile) (p : obj) : M obj :=
  let* rows := query One f p in
  match rows with
  | [] => throw (QueryResultError noData)
  | [r] => ret r
  | _ => throw (QueryResultError multiple)
  end.

(** [conn().any]: any number of rows. *)
Definition any (f : sqlFile) (p : obj) : M (list obj) := query Any f p.

(** [conn().none]: no row is expected. *)
Definition none (f : sqlFile) (p : obj) : M unit :=
  let* rows := query None_ f p in
  match rows with
  | [] => ret ()
  | _ => throw (QueryResultError notEmpty)
  end.

(** ** The methods of [class Group] *)

Definition insert : M unit :=
  let* group := get_this in
  if decide (id group ≠ JUndefined)
  then throw (JsError "Attempt to insert a group that already has an ID")
  else let* resp := one insert_new_group (Group_obj group) in
       set_this_id (prop resp "id").

Definition mapRow (row : obj) : Group := mkGroup (prop row "id") (prop row "name").

Definition getByName (name : jsval) : M Group :=
  let* row := one get_group_by_name [("name", name)] in
  ret (mapRow row).

Definition getByID (id : jsval) : M Group :=
  let* row := one get_group_by_id [("id", id)] in
  ret (mapRow row).

Definition getAll : M (list Group) :=
  let* rows := any get_all_groups [] in
  ret (map mapRow rows).

Definition getImmediateMetersByGroupID (id : jsval) : M (list jsval) :=
  let* rows := any get_immediate_meters_by_group_id [("id", id)] in
  ret (map (λ row, prop row "meter_id") rows).

Definition getImmediateGroupsByGroupID (id : jsval) : M (list jsval) :=
  let* rows := any get_immediate_groups_by_group_id [("id", id)] in
  ret (map (λ row, prop row "child_id") rows).

(** Modelled from the spec: [Meter.getByID] of models/Meter.js, the meter
    registry's by-id lookup ("getByID(id, executor) → Meter, used by the
    Group Hierarchy Engine to validate adopt targets"); like
    [Group.getByID] it expects exactly one row. *)
Definition Meter_getByID (id : jsval) : M MeterRef :=
  let* row := one get_meter_by_id [("id", id)] in
  ret (mkMeterRef (prop row "id")).

Definition adoptGroup (childID : jsval) : M unit :=
  let* child := getByID childID in
  let* g := get_this in
  none associate_child_group_with_parent_group
       [("parent_id", id g); ("child_id", id child)].

Definition adoptMeter (childID : jsval) : M unit :=
  let* meter := Meter_getByID childID in
  let* g := get_this in
  none associate_child_meter_with_parent_group
       [("group_id", id g); ("meter_id", meter_ref_id meter)].

Definition getDeepGroupsByGroupID (id : jsval) : M (list jsval) :=
  let* rows := any get_deep_groups_by_group_id [("id", id)] in
  ret (map (λ row, prop row "child_id") rows).

Definition getDeepMetersByGroupID (id : jsval) : M (list jsval) :=
  let* rows := any get_deep_meters_by_group_id [("id", id)] in
  ret (map (λ row, prop row "meter_id") rows).

Definition rename (newName : jsval) : M unit :=
  let* g := get_this in
  none rename_group [("new_name", newName); ("id", id g)].

Definition disownGroup (childID : jsval) : M unit :=
  let* g := get_this in
  none disown_child_group [("parent_id", id g); ("child_id", childID)].

Definition disownMeter (meterID : jsval) : M unit :=
  let* g := get_this in
  none disown_child_meter [("parent_id", id g); ("meter_id", meterID)].

Definition getParents : M (list jsval) :=
  let* g := get_this in
  let* rows := any get_parents_by_group_id [("child_id", id g)] in
  ret (map (λ row, prop row "parent_id") rows).

Definition delete (groupID : jsval) : M unit :=
  none delete_group [("id", groupID)].
End Connection.

Arguments heap : clear implicits.
Arguments mkHeap {DB} _ _ _.

(** ** Edge relations

    Modelled from the spec: the two edge tables of
    sql/group/create_groups_tables.sql, which is not among the source files.
    "Edges stored as (parent_id, child_id) pairs in two separate relations
    (group-group, group-meter), both without inherent ordering"; "a group has
    a set of child groups and a set of child meters".  An edge relation is
    kept as the list of its rows in insertion order, without duplicate
    rows. *)
Section Edges.
Context {V : Type} `{EqDecision V}.
Implicit Types (E : list (V * V)) (v : V).

Definition edge E : relation V := λ a b, (a, b) ∈ E.

(** Modelled from the spec: "one-hop children" and "one-hop parents" of a
    node, in row order. *)
Definition children E v : list V := (filter (λ e, e.1 = v) E).*2.
Definition parents E v : list V := (filter (λ e, e.2 = v) E).*1.

(** Modelled from the spec: "edge insert" into a set of edges; a row already
    present is not stored twice. *)
Definition add_edge (e : V * V) E : list (V * V) :=
  if decide (e ∈ E) then E else E ++ [e].

(** Modelled from the spec: "edge delete"; "removes edge", "no-op-safe if
    edge absent". *)
Definition remove_edge (e : V * V) E : list (V * V) := filter (λ e', e' ≠ e) E.

(** Modelled from the spec: "purges all edges in both directions"; removes
    every row that mentions [v], as parent or as child. *)
Definition purge v E : list (V * V) := filter (λ e, e.1 ≠ v ∧ e.2 ≠ v) E.

(** Modelled from the spec: the "recursive descendant query", "a visited-set
    traversal (breadth-first or depth-first) with id deduplication".  Each
    round takes the children of the frontier, drops duplicates and the nodes
    already visited, and goes on from the nodes that are new. *)
Fixpoint closure (fuel : nat) E (visited frontier : list V) : list V :=
  match fuel, frontier with
  | S n, _ :: _ =>
      let next := list_difference (remove_dups (frontier ≫= children E)) visited in
      closure n E (visited ++ next) next
  | _, _ => visited
  end.

(** Modelled from the spec: "deep descendant: any node reachable via one or
    more child edges".  The walk starts from the children of [v]; one round
    per stored row is always enough (see [closure_closed]). *)
Definition deep_children E v : list V :=
  let start := remove_dups (children E v) in
  closure (length E) E start start.

(** "The child-group relation, viewed as a directed graph over group ids,
    must remain acyclic": no node reaches itself by one or more edges. *)
Definition acyclic E : Prop := ∀ v, ¬ tc (edge E) v v.

(** The same as a test: no parent of the relation is among its own deep
    descendants (see [acyclicb_acyclic]). *)
Definition acyclicb E : bool :=
  forallb (λ v, bool_decide (v ∉ deep_children E v)) (E.*1).
End Edges.

(** ** The backing store *)

(** Modelled from the spec: the rows behind the connection, which the
    repository creates with sql/group/create_groups_tables.sql (not among the
    source files).  "Persisted layout: group names unique; edges stored as
    (parent_id, child_id) pairs in two separate relations (group-group,
    group-meter)".  Groups and meters are keyed by their id. *)
Record database := mkDatabase {
  groups : gmap Z jsval;
  meters : gmap Z jsval;
  child_groups : list (jsval * jsval);
  child_meters : list (jsval * jsval)
}.

(** Modelled from the spec: a stored row as the connection returns it, with
    the columns [mapRow] reads ([row.id], [row.name]). *)
Definition row_of_group (r : Z * jsval) : obj := [("id", JNum r.1); ("name", r.2)].

(** Modelled from the spec: "by-id lookup"; the row with the given id, if
    there is one. *)
Definition lookup_id (t : gmap Z jsval) (v : jsval) : list obj :=
  match v with
  | JNum i => match t !! i with
              | Some n => [row_of_group (i, n)]
              | None => []
              end
  | _ => []
  end.

(** The value is the id of a stored row. *)
Definition has_id (t : gmap Z jsval) (v : jsval) : bool :=
  match v with
  | JNum i => bool_decide (is_Some (t !! i))
  | _ => false
  end.

(** Modelled from the spec: "assigns new id"; an id above every id of the
    table. *)
Definition fresh_id (t : gmap Z jsval) : Z :=
  Z.succ (foldr Z.max 0 (map_to_list t).*1).

(** Modelled from the spec: "by-name lookup"; the ids of the rows called
    [n]. *)
Definition ids_named (t : gmap Z jsval) (n : jsval) : list Z :=
  (filter (λ r, r.2 = n) (map_to_list t)).*1.

(** Result rows with the single column [k]. *)
Definition column (k : string) (vs : list jsval) : list obj := map (λ v, [(k, v)]) vs.

(** Modelled from the spec: the statements of sql/group/*.sql (not among the
    source files), "parameterized query primitives (by-name lookup, by-id lookup,
    insert, edge insert/delete, recursive descendant query)" over the rows of
    [database].  Insert assigns a new id; insert and rename keep the group
    names unique and fail with [Conflict] on a duplicate name; the edge
    statements insert and delete single rows; the deep queries are the
    visited-set walk [deep_children]; delete_group, as the doc comment of
    [Group.delete] has it, deletes the group and purges all trace of it from
    its parents and children. *)
Definition run_sql (f : sqlFile) (p : obj) (db : database)
  : dberror + (list obj * database) :=
  match f with
  | insert_new_group =>
      match ids_named (groups db) (prop p "name") with
      | [] => let i := fresh_id (groups db) in
              inr ([[("id", JNum i)]],
                   mkDatabase (<[i := prop p "name"]> (groups db)) (meters db)
                              (child_groups db) (child_meters db))
      | _ => inl Conflict
      end
  | get_group_by_name =>
      inr (map row_of_group (filter (λ r, r.2 = prop p "name") (map_to_list (groups db))), db)
  | get_group_by_id => inr (lookup_id (groups db) (prop p "id"), db)
  | get_all_groups => inr (map row_of_group (map_to_list (groups db)), db)
  | get_immediate_meters_by_group_id =>
      inr (column "meter_id" (children (child_meters db) (prop p "id")), db)
  | get_immediate_groups_by_group_id =>
      inr (column "child_id" (children (child_groups db) (prop p "id")), db)
  | associate_child_group_with_parent_group =>
      inr ([], mkDatabase (groups db) (meters db)
                 (add_edge (prop p "parent_id", prop p "child_id") (child_groups db))
                 (child_meters db))
  | associate_child_meter_with_parent_group =>
      inr ([], mkDatabase (groups db) (meters db) (child_groups db)
                 (add_edge (prop p "group_id", prop p "meter_id") (child_meters db)))
  | get_deep_groups_by_group_id =>
      inr (column "child_id" (deep_children (child_groups db) (prop p "id")), db)
  | get_deep_meters_by_group_id =>
      inr (column "meter_id"
             (remove_dups ((prop p "id" :: deep_children (child_groups db) (prop p "id"))
                             ≫= children (child_meters db))), db)
  | rename_group =>
      match prop p "id" with
      | JNum i =>
          match groups db !! i with
          | Some _ =>
              if decide (ids_named (groups db) (prop p "new_name") ⊆ [i])
              then inr ([], mkDatabase (<[i := prop p "new_name"]> (groups db)) (meters db)
                              (child_groups db) (child_meters db))
              else inl Conflict
          | None => inr ([], db)
          end
      | _ => inr ([], db)
      end
  | disown_child_group =>
      inr ([], mkDatabase (groups db) (meters db)
                 (remove_edge (prop p "parent_id", prop p "child_id") (child_groups db))
                 (child_meters db))
  | disown_child_meter =>
      inr ([], mkDatabase (groups db) (meters db) (child_groups db)
                 (remove_edge (prop p "parent_id", prop p "meter_id") (child_meters db)))
  | get_parents_by_group_id =>
      inr (column "parent_id" (parents (child_groups db) (prop p "child_id")), db)
  | delete_group =>
      inr ([], mkDatabase
                 (match prop p "id" with JNum i => base.delete i (groups db) | _ => groups db end)
                 (meters db)
                 (purge (prop p "id") (child_groups db))
                 (filter (λ e, e.1 ≠ prop p "id") (child_meters db)))
  | get_meter_by_id => inr (lookup_id (meters db) (prop p "id"), db)
  end.

(** ** The meter update cycle *)

Module UpdateMeters.
(** [Meter.type]: "a type tag from a closed set (e.g. MAMAC and other
    supported protocols)". *)
Inductive MeterType := MAMAC | OtherProtocol (tag : string).

(** A meter as the test builds it:
    [new Meter(undefined, 'GOOD', 1, true, true, Meter.type.MAMAC)]. *)
Record Meter := mkMeter {
  id : jsval;
  name : string;
  identifier : Z;
  enabled : bool;
  displayable : bool;
  type : MeterType
}.

(** A reading as the test builds it:
    [new Reading(goodMeter.id, 0, moment(start), moment(end))], the
    timestamps counted in seconds. *)
Record Reading := mkReading {
  meterID : jsval;
  reading : Z;
  startTimestamp : Z;
  endTimestamp : Z
}.

(** The data reader of the test, a stub that resolves with a reading or
    rejects with an error. *)
Definition DataReader := Meter → outcome Reading.

(** Modelled from the spec: the Reading Store of models/Reading.js (not
    among the source files), "insert(reading, executor)" and
    "getAllByMeterID(meterID, executor) → sequence of Reading" over the
    persisted rows. *)
Definition Reading_insert (r : Reading) (rows : list Reading) : list Reading :=
  rows ++ [r].

Definition Reading_getAllByMeterID (i : jsval) (rows : list Reading) : list Reading :=
  filter (λ r, meterID r = i) rows.

(** Modelled from the spec: the validation of a fetched reading,
    "Invariant: startTimestamp < endTimestamp". *)
Definition valid (r : Reading) : bool := bool_decide (startTimestamp r < endTimestamp r).

(** Modelled from the spec: the per-meter entry of the "aggregated result"
    ("failures enumerated"). *)
Inductive MeterOutcome :=
| Persisted (r : Reading)
| FetchFailed (e : error)
| Invalid (r : Reading).

(** Modelled from the spec: one meter of the cycle.  The reader is invoked
    once; "on success, the returned Reading is validated against the interval
    invariant and persisted", "on failure, the meter is skipped". *)
Definition updateMeter (dataReader : DataReader) (m : Meter) (rows : list Reading)
  : MeterOutcome * list Reading :=
  match dataReader m with
  | Resolved r => if valid r then (Persisted r, Reading_insert r rows)
                  else (Invalid r, rows)
  | Rejected e => (FetchFailed e, rows)
  end.

(** Modelled from the spec: [updateAllMeters] of services/updateMeters.js
    (not among the source files; the test calls it as
    [updateAllMeters(dataReader, metersToUpdate, conn)]), the spec's
    [runUpdateCycle]: "for each meter in the input sequence, invoke the
    Data Reader Adapter exactly once ... On success, the returned Reading
    is validated against the interval invariant and persisted ... On
    failure, the meter is skipped and the failure is reported to the caller
    as part of an aggregated result". *)
Fixpoint runUpdateCycle (dataReader : DataReader) (metersToUpdate : list Meter)
    (rows : list Reading) : list (Meter * MeterOutcome) * list Reading :=
  match metersToUpdate with
  | [] => ([], rows)
  | m :: ms =>
      let '(o, rows1) := updateMeter dataReader m rows in
      let '(report, rows2) := runUpdateCycle dataReader ms rows1 in
      ((m, o) :: report, rows2)
  end.

(** The meter's fetch succeeded and its reading passed validation. *)
Definition succeeds (dataReader : DataReader) (m : Meter) : bool :=
  match dataReader m with
  | Resolved r => valid r
  | Rejected _ => false
  end.

(** The reader answers each meter of the cycle with a reading of that
    meter. *)
Definition attributed (dataReader : DataReader) (ms : list Meter) : Prop :=
  ∀ m r, m ∈ ms → dataReader m = Resolved r → meterID r = id m.

(** The reading a meter contributes to the cycle, if any. *)
Definition accepted (dataReader : DataReader) (m : Meter) : option Reading :=
  match dataReader m with
  | Resolved r => if valid r then Some r else None
  | Rejected _ => None
  end.

Global Instance MeterType_eq_dec : EqDecision MeterType.
Proof. solve_decision. Defined.

Global Instance Meter_eq_dec : EqDecision Meter.
Proof. solve_decision. Defined.

(** The meters and the stub of the test "can persist over a failed
    request", with the ids the two inserts gave them. *)
Definition goodMeter : Meter := mkMeter (JNum 1) "GOOD" 1 true true MAMAC.
Definition badMeter : Meter := mkMeter (JNum 2) "BAD" 2 true true MAMAC.

Definition stubReader : DataReader := λ m,
  if decide (m = goodMeter) then Resolved (mkReading (id goodMeter) 0 0 3600)
  else if decide (m = badMeter) then Rejected (JsError "Bland error message")
  else Rejected (JsError "Error").
End UpdateMeters.

(** ** Sample stores *)

(** Groups A (1) and B (2), meter M (10); A has child group B and child
    meter M. *)
Definition db_two : database :=
  mkDatabase (<[1 := JStr "A"]> (<[2 := JStr "B"]> ∅)) (<[10 := JStr "M"]> ∅)
             [(JNum 1, JNum 2)] [(JNum 1, JNum 10)].

(** A diamond: 1 → 2 → 4 and 1 → 3 → 4, and the same rows inserted in the
    opposite order. *)
Definition diamond_groups : gmap Z jsval :=
  <[1 := JStr "A"]> (<[2 := JStr "B"]> (<[3 := JStr "C"]> (<[4 := JStr "D"]> ∅))).

Definition db_diamond : database :=
  mkDatabase diamond_groups ∅
             [(JNum 1, JNum 2); (JNum 1, JNum 3); (JNum 2, JNum 4); (JNum 3, JNum 4)] [].

Definition db_diamond_rev : database :=
  mkDatabase diamond_groups ∅
             [(JNum 3, JNum 4); (JNum 2, JNum 4); (JNum 1, JNum 3); (JNum 1, JNum 2)] [].

(** The diamond with a stored meter M (10) that no group has adopted yet. *)
Definition db_diamond_meter : database :=
  mkDatabase diamond_groups (<[10 := JStr "M"]> ∅)
             [(JNum 1, JNum 2); (JNum 1, JNum 3); (JNum 2, JNum 4); (JNum 3, JNum 4)] [].

(** A receiver on a store, with nothing logged yet. *)
Definition on (g : Group) (db : database) : heap database := mkHeap g db [].

(** ** Invariants of the backing store *)

(** "Group names unique": no two stored groups carry the same name. *)
Definition names_unique (t : gmap Z jsval) : Prop :=
  ∀ i j n, t !! i = Some n → t !! j = Some n → i = j.

(** The group as [mapRow] builds it from its stored row. *)
Definition stored_group (r : Z * jsval) : Group := mkGroup (JNum r.1) r.2.

(** * Facts about edge relations *)
Section EdgeFacts.
Context {V : Type} `{EqDecision V}.
Implicit Types (E : list (V * V)) (v x y : V).

Lemma elem_of_children E v y : y ∈ children E v ↔ edge E v y.
Proof.
  unfold children, edge. rewrite list_elem_of_fmap. split.
  - intros [[a b] [-> [Ha Hin]%list_elem_of_filter]]. simpl in *. by subst.
  - intros Hin. exists (v, y). split; [done|]. by apply list_elem_of_filter.
Qed.

Lemma elem_of_parents E v x : x ∈ parents E v ↔ edge E x v.
Proof.
  unfold parents, edge. rewrite list_elem_of_fmap. split.
  - intros [[a b] [-> [Ha Hin]%list_elem_of_filter]]. simpl in *. by subst.
  - intros Hin. exists (x, v). split; [done|]. by apply list_elem_of_filter.
Qed.

Lemma elem_of_add_edge e e' E : e' ∈ add_edge e E ↔ e' = e ∨ e' ∈ E.
Proof.
  unfold add_edge. case_decide.
  - split; [by right | by intros [->|]].
  - rewrite elem_of_app, list_elem_of_singleton. tauto.
Qed.

Lemma elem_of_remove_edge e e' E : e' ∈ remove_edge e E ↔ e' ∈ E ∧ e' ≠ e.
Proof. unfold remove_edge. rewrite list_elem_of_filter. tauto. Qed.

Lemma remove_edge_absent e E : e ∉ E → remove_edge e E = E.
Proof.
  intros He. unfold remove_edge. induction E as [|a E IH]; [done|].
  rewrite filter_cons. apply not_elem_of_cons in He as [Hne HE].
  case_decide; [|congruence]. by rewrite IH.
Qed.

Lemma remove_edge_idemp e E : remove_edge e (remove_edge e E) = remove_edge e E.
Proof. apply remove_edge_absent. rewrite elem_of_remove_edge. tauto. Qed.

Lemma elem_of_purge v e E : e ∈ purge v E ↔ e ∈ E ∧ e.1 ≠ v ∧ e.2 ≠ v.
Proof. unfold purge. rewrite list_elem_of_filter. tauto. Qed.

Lemma children_nil E v : (∀ y, ¬ edge E v y) → children E v = [].
Proof.
  intros Hno. destruct (children E v) as [|y l] eqn:Hc; [done|].
  destruct (Hno y). apply elem_of_children. rewrite Hc. left.
Qed.

Lemma parents_nil E v : (∀ x, ¬ edge E x v) → parents E v = [].
Proof.
  intros Hno. destruct (parents E v) as [|x l] eqn:Hc; [done|].
  destruct (Hno x). apply elem_of_parents. rewrite Hc. left.
Qed.

Lemma edge_child_in E x y : edge E x y → y ∈ E.*2.
Proof. intros Hxy. apply list_elem_of_fmap. by exists (x, y). Qed.

Lemma edge_parent_in E x y : edge E x y → x ∈ E.*1.
Proof. intros Hxy. apply list_elem_of_fmap. by exists (x, y). Qed.

Lemma NoDup_within_length (l k : list V) : NoDup l → l ⊆ k → (length l ≤ length k)%nat.
Proof. intros Hl Hsub. apply submseteq_length. by apply NoDup_submseteq. Qed.

(** The walk visits no node twice, keeps what it has visited, stops on a
    set closed under the edges, and only adds descendants of the frontier.
    The fuel condition says that the rounds left cover the rows that can
    still bring a new node. *)
Lemma closure_closed fuel E : ∀ visited frontier,
  NoDup visited →
  frontier ⊆ visited →
  visited ⊆ E.*2 →
  (∀ x y, x ∈ visited → x ∉ frontier → edge E x y → y ∈ visited) →
  (frontier ≠ [] → (length E < fuel + length visited)%nat) →
  NoDup (closure fuel E visited frontier) ∧
  visited ⊆ closure fuel E visited frontier ∧
  (∀ x y, x ∈ closure fuel E visited frontier → edge E x y →
          y ∈ closure fuel E visited frontier) ∧
  (∀ x, x ∈ closure fuel E visited frontier →
        x ∈ visited ∨ ∃ f, f ∈ frontier ∧ tc (edge E) f x).
Proof.
  assert (Hstop : ∀ visited frontier,
    NoDup visited → visited ⊆ E.*2 → frontier = [] →
    (∀ x y, x ∈ visited → x ∉ frontier → edge E x y → y ∈ visited) →
    NoDup visited ∧ visited ⊆ visited ∧
    (∀ x y, x ∈ visited → edge E x y → y ∈ visited) ∧
    (∀ x, x ∈ visited → x ∈ visited ∨ ∃ f, f ∈ frontier ∧ tc (edge E) f x)).
  { intros visited frontier Hnd Hsub -> Hcl. repeat split; [done|done| |by left].
    intros x y Hx Hxy. apply (Hcl x y); [done| |done]. apply not_elem_of_nil. }
  induction fuel as [|n IH]; intros visited frontier Hnd Hfv Hsub Hcl Hfuel.
  - assert (frontier = []) as Hnil.
    { destruct frontier as [|f fs]; [done|]. exfalso.
      pose proof (NoDup_within_length _ _ Hnd Hsub) as Hlen.
      rewrite length_fmap in Hlen. specialize (Hfuel ltac:(done)). simpl in Hfuel. lia. }
    simpl. by apply Hstop.
  - destruct frontier as [|f fs] eqn:Hfr; [simpl; by apply Hstop|].
    rewrite <- Hfr in *. assert (Hne : frontier ≠ []) by (by rewrite Hfr).
    replace (closure (S n) E visited frontier) with
      (closure n E
         (visited ++ list_difference (remove_dups (frontier ≫= children E)) visited)
         (list_difference (remove_dups (frontier ≫= children E)) visited))
      by (by rewrite Hfr).
    set (next := list_difference (remove_dups (frontier ≫= children E)) visited).
    assert (Hnext : ∀ y, y ∈ next ↔ (∃ x, x ∈ frontier ∧ edge E x y) ∧ y ∉ visited).
    { intros y. unfold next.
      rewrite list_elem_of_difference, elem_of_remove_dups, list_elem_of_bind.
      setoid_rewrite elem_of_children. firstorder. }
    destruct (IH (visited ++ next) next) as (Hnd' & Hsub' & Hcl' & Hsound').
    + apply NoDup_app. repeat split; [done| |].
      * intros x Hx [_ Hnx]%Hnext. done.
      * apply NoDup_list_difference, NoDup_remove_dups.
    + intros x Hx. apply elem_of_app. by right.
    + intros x [Hx|[[p [_ Hp]] _]%Hnext]%elem_of_app; [by apply Hsub|].
      by eapply edge_child_in.
    + intros x y [Hx|Hx]%elem_of_app Hxn Hxy; [|done].
      apply elem_of_app.
      destruct (decide (y ∈ visited)) as [|Hy]; [by left|].
      destruct (decide (x ∈ frontier)) as [Hxf|Hxf].
      * right. apply Hnext. eauto.
      * left. by apply (Hcl x y).
    + intros Hnn. specialize (Hfuel Hne). rewrite length_app.
      destruct next; [done|]. simpl in *. lia.
    + repeat split; [done| |done|].
      * intros x Hx. apply Hsub', elem_of_app. by left.
      * intros x [[Hx|Hx]%elem_of_app|(f' & Hf' & Htc)]%Hsound'.
        -- by left.
        -- apply Hnext in Hx as [(p & Hp & Hpx) _]. right. exists p.
           split; [done|]. by apply tc_once.
        -- apply Hnext in Hf' as [(p & Hp & Hpf) _]. right. exists p.
           split; [done|]. by eapply tc_l.
Qed.

Lemma NoDup_deep_children E v : NoDup (deep_children E v).
Proof.
  unfold deep_children.
  apply (closure_closed (length E) E (remove_dups (children E v))
           (remove_dups (children E v))).
  - apply NoDup_remove_dups.
  - done.
  - intros y Hy%elem_of_remove_dups%elem_of_children. by eapply edge_child_in.
  - intros x y Hx Hnx. done.
  - intros Hne. destruct (remove_dups (children E v)); [done|]. simpl. lia.
Qed.

(** The deep descendants are exactly the nodes reached by one or more
    edges. *)
Lemma elem_of_deep_children E v x : x ∈ deep_children E v ↔ tc (edge E) v x.
Proof.
  unfold deep_children.
  destruct (closure_closed (length E) E (remove_dups (children E v))
              (remove_dups (children E v))) as (_ & Hsub & Hcl & Hsound).
  - apply NoDup_remove_dups.
  - done.
  - intros y Hy%elem_of_remove_dups%elem_of_children. by eapply edge_child_in.
  - intros a b Ha Hna. done.
  - intros Hne. destruct (remove_dups (children E v)); [done|]. simpl. lia.
  - split.
    + intros [Hx|(f & Hf & Htc)]%Hsound.
      * apply tc_once. by apply elem_of_children, elem_of_remove_dups.
      * eapply tc_l; [|done]. by apply elem_of_children, elem_of_remove_dups.
    + intros Htc.
      assert (∃ y, edge E v y ∧ rtc (edge E) y x) as (y & Hvy & Hyx).
      { destruct Htc as [a b Hab|a b c Hab Hbc]; [by exists b|].
        exists b. split; [done|]. by apply tc_rtc. }
      assert (Hy : y ∈ closure (length E) E (remove_dups (children E v))
                     (remove_dups (children E v))).
      { by apply Hsub, elem_of_remove_dups, elem_of_children. }
      clear Htc Hvy. induction Hyx as [|a b c Hab _ IHr]; [done|].
      apply IHr. by apply (Hcl a b).
Qed.

Lemma acyclicb_acyclic E : acyclicb E = true ↔ acyclic E.
Proof.
  unfold acyclicb, acyclic. rewrite forallb_forall. split.
  - intros Hall v Htc.
    assert (v ∈ E.*1) as Hv.
    { inversion Htc; subst; by eapply edge_parent_in. }
    apply list_elem_of_In, Hall, bool_decide_eq_true in Hv.
    by apply Hv, elem_of_deep_children.
  - intros Hac v _. apply bool_decide_eq_true.
    intros Hin%elem_of_deep_children. by apply (Hac v).
Qed.

(** Paths of a relation that gained the row [(p, c)]. *)
Lemma tc_add_edge E p c a b :
  tc (edge (add_edge (p, c) E)) a b →
  tc (edge E) a b ∨ (rtc (edge E) a p ∧ rtc (edge E) c b).
Proof.
  assert (Hstep : ∀ x y, edge (add_edge (p, c) E) x y →
                         edge E x y ∨ (x = p ∧ y = c)).
  { intros x y [Heq|Hin]%elem_of_add_edge; [right|by left]. by inversion Heq. }
  induction 1 as [a b Hab|a b d Hab _ IH].
  - destruct (Hstep _ _ Hab) as [Hin|[-> ->]]; [left; by apply tc_once|by right].
  - destruct (Hstep _ _ Hab) as [Hin|[-> ->]], IH as [Htc|[Hbp Hcd]].
    + left. by eapply tc_l.
    + right. split; [by eapply rtc_l|done].
    + right. split; [done|by apply tc_rtc].
    + right. by split.
Qed.

Lemma tc_add_edge_mono E e a b : tc (edge E) a b → tc (edge (add_edge e E)) a b.
Proof.
  apply tc_congruence with (f := λ x, x). intros x y Hxy.
  apply elem_of_add_edge. by right.
Qed.

(** Adding the row [(p, c)] to an acyclic relation keeps it acyclic
    exactly when [p] is neither [c] nor a deep descendant of [c]. *)
Lemma acyclic_add_edge E p c :
  acyclic E →
  acyclic (add_edge (p, c) E) ↔ p ≠ c ∧ p ∉ deep_children E c.
Proof.
  intros Hac. rewrite elem_of_deep_children. split.
  - intros Hac'. 
    assert (Hnew : tc (edge (add_edge (p, c) E)) p c).
    { apply tc_once, elem_of_add_edge. by left. }
    split.
    + intros ->. by apply (Hac' c).
    + intros Hcp. apply (Hac' p). etrans; [done|]. by apply tc_add_edge_mono.
  - intros [Hne Hncp] v [Hvv|[Hvp Hcv]]%tc_add_edge; [by apply (Hac v)|].
    assert (rtc (edge E) c p) as [?|?]%rtc_tc by (by etrans); congruence.
Qed.
End EdgeFacts.

(** * Facts that hold over every database *)
Section ConnectionFacts.
Context {DB : Type}.
Variable exec : sqlFile → obj → DB → dberror + (list obj * DB).
Implicit Types h : heap DB.

(** A method that only runs statements leaves the receiver as it was. *)
Lemma query_this m f p h : this (query exec m f p h).2 = this h.
Proof. unfold query. by destruct (exec f p (store h)) as [e|[rows db']]. Qed.

Lemma query_calls m f p h : calls (query exec m f p h).2 = calls h ++ [mkCall m f p].
Proof. unfold query. by destruct (exec f p (store h)) as [e|[rows db']]. Qed.

Lemma none_this f p h : this (none exec f p h).2 = this h.
Proof.
  unfold none, bind. pose proof (query_this None_ f p h) as Hq.
  destruct (query exec None_ f p h) as [[[|r rows]|e] h']; done.
Qed.

Lemma none_calls f p h : calls (none exec f p h).2 = calls h ++ [mkCall None_ f p].
Proof.
  unfold none, bind. pose proof (query_calls None_ f p h) as Hq.
  destruct (query exec None_ f p h) as [[[|r rows]|e] h']; done.
Qed.

Lemma one_this f p h : this (one exec f p h).2 = this h.
Proof.
  unfold one, bind. pose proof (query_this One f p h) as Hq.
  destruct (query exec One f p h) as [[[|r [|r' rows]]|e] h']; done.
Qed.

Lemma one_calls f p h : calls (one exec f p h).2 = calls h ++ [mkCall One f p].
Proof.
  unfold one, bind. pose proof (query_calls One f p h) as Hq.
  destruct (query exec One f p h) as [[[|r [|r' rows]]|e] h']; done.
Qed.

Lemma insert_assigned_id h :
  id (this h) ≠ JUndefined →
  insert exec h
  = (Rejected (JsError "Attempt to insert a group that already has an ID"), h).
Proof. intros Hid. unfold insert, bind, get_this, throw. by case_decide. Qed.

(** [adoptGroup] runs the by-id lookup of the child and then, at most, the
    edge statement with [this.id] as the parent. *)
Lemma adoptGroup_calls childID h :
  ∃ rest, calls (adoptGroup exec childID h).2
          = calls h ++ mkCall One get_group_by_id [("id", childID)] :: rest ∧
          (rest = [] ∨
           ∃ child_id, rest = [mkCall None_ associate_child_group_with_parent_group
                                 [("parent_id", id (this h)); ("child_id", child_id)]]).
Proof.
  unfold adoptGroup, getByID, bind at 1 2.
  pose proof (one_this get_group_by_id [("id", childID)] h) as Ht.
  pose proof (one_calls get_group_by_id [("id", childID)] h) as Hc.
  destruct (one exec get_group_by_id [("id", childID)] h) as [[row|e] h1]; simpl in *.
  - unfold ret, bind, get_this. eexists. rewrite none_calls, Hc, Ht, <- app_assoc.
    split; [done|]. right. by eexists.
  - exists []. split; [done|by left].
Qed.

Lemma adoptMeter_calls childID h :
  ∃ rest, calls (adoptMeter exec childID h).2
          = calls h ++ mkCall One get_meter_by_id [("id", childID)] :: rest ∧
          (rest = [] ∨
           ∃ meter_id, rest = [mkCall None_ associate_child_meter_with_parent_group
                                 [("group_id", id (this h)); ("meter_id", meter_id)]]).
Proof.
  unfold adoptMeter, Meter_getByID, bind at 1 2.
  pose proof (one_this get_meter_by_id [("id", childID)] h) as Ht.
  pose proof (one_calls get_meter_by_id [("id", childID)] h) as Hc.
  destruct (one exec get_meter_by_id [("id", childID)] h) as [[row|e] h1]; simpl in *.
  - unfold ret, bind, get_this. eexists. rewrite none_calls, Hc, Ht, <- app_assoc.
    split; [done|]. right. by eexists.
  - exists []. split; [done|by left].
Qed.
End ConnectionFacts.

(** C10: rename runs one statement, keyed by [this.id], and assigns no field
    of the receiver: whatever the database answers, and so also when the
    promise resolves, the in-memory group keeps its id and its old name. *)
Theorem rename_keeps_receiver {DB : Type}
    (exec : sqlFile → obj → DB → dberror + (list obj * DB))
    (newName : jsval) (h : heap DB) :
  this (rename exec newName h).2 = this h ∧
  name (this (rename exec newName h).2) = name (this h) ∧
  calls (rename exec newName h).2
  = calls h ++ [mkCall None_ rename_group [("new_name", newName); ("id", id (this h))]].
Proof.
  unfold rename, bind, get_this. rewrite none_this, none_calls. done.
Qed.

(** * Facts about the backing store *)

Lemma column_prop k vs : map (λ row, prop row k) (column k vs) = vs.
Proof.
  unfold column. induction vs as [|v vs IH]; [done|].
  simpl. rewrite IH. by rewrite decide_True.
Qed.

Lemma lookup_id_absent t v : has_id t v = false → lookup_id t v = [].
Proof.
  destruct v as [| |i|]; try done. simpl. intros Hno%bool_decide_eq_false.
  destruct (t !! i) eqn:Hi; [|done]. destruct Hno. by eexists.
Qed.

Lemma lookup_id_present t v :
  has_id t v = true → ∃ n, lookup_id t v = [[("id", v); ("name", n)]].
Proof.
  destruct v as [| |i|]; try done. simpl. intros [n Hn]%bool_decide_eq_true.
  exists n. by rewrite Hn.
Qed.

Lemma fresh_id_above (t : gmap Z jsval) i : is_Some (t !! i) → i < fresh_id t.
Proof.
  intros [n Hn]. unfold fresh_id.
  assert (i ∈ (map_to_list t).*1) as Hin.
  { apply list_elem_of_fmap. exists (i, n). split; [done|]. by apply elem_of_map_to_list. }
  revert Hin. generalize ((map_to_list t).*1). intros l Hin.
  induction l as [|a l IH]; [by apply elem_of_nil in Hin|].
  apply elem_of_cons in Hin as [->|Hin]; simpl; [lia|]. specialize (IH Hin). lia.
Qed.

Lemma fresh_id_fresh (t : gmap Z jsval) : t !! fresh_id t = None.
Proof.
  destruct (t !! fresh_id t) eqn:Hl; [|done].
  assert (fresh_id t < fresh_id t) by (apply fresh_id_above; by eexists). lia.
Qed.

Lemma elem_of_ids_named (t : gmap Z jsval) n i : i ∈ ids_named t n ↔ t !! i = Some n.
Proof.
  unfold ids_named. rewrite list_elem_of_fmap. split.
  - intros [[j m] [-> [Hm Hin]%list_elem_of_filter]]. simpl in *. subst.
    by apply elem_of_map_to_list.
  - intros Hi. exists (i, n). split; [done|]. apply list_elem_of_filter.
    split; [done|]. by apply elem_of_map_to_list.
Qed.

(** What [adoptGroup] does on the store: the child is looked up; when it is
    there the row (this.id, childID) is added to the group edges, and when it
    is not the lookup's rejection ends the call. *)
Lemma adoptGroup_run (h : heap database) (childID : jsval) :
  adoptGroup run_sql childID h =
  if has_id (groups (store h)) childID
  then (Resolved (),
        mkHeap (this h)
          (mkDatabase (groups (store h)) (meters (store h))
             (add_edge (id (this h), childID) (child_groups (store h)))
             (child_meters (store h)))
          (calls h ++ [mkCall One get_group_by_id [("id", childID)];
                       mkCall None_ associate_child_group_with_parent_group
                         [("parent_id", id (this h)); ("child_id", childID)]]))
  else (Rejected NotFound,
        mkHeap (this h) (store h) (calls h ++ [mkCall One get_group_by_id [("id", childID)]])).
Proof.
  unfold adoptGroup, getByID, none, one, bind, query, get_this, ret, throw. simpl.
  destruct (has_id (groups (store h)) childID) eqn:Hhas.
  - destruct (lookup_id_present _ _ Hhas) as [n ->]. simpl.
    by rewrite <- app_assoc.
  - by rewrite (lookup_id_absent _ _ Hhas).
Qed.

Lemma adoptMeter_run (h : heap database) (childID : jsval) :
  adoptMeter run_sql childID h =
  if has_id (meters (store h)) childID
  then (Resolved (),
        mkHeap (this h)
          (mkDatabase (groups (store h)) (meters (store h)) (child_groups (store h))
             (add_edge (id (this h), childID) (child_meters (store h))))
          (calls h ++ [mkCall One get_meter_by_id [("id", childID)];
                       mkCall None_ associate_child_meter_with_parent_group
                         [("group_id", id (this h)); ("meter_id", childID)]]))
  else (Rejected NotFound,
        mkHeap (this h) (store h) (calls h ++ [mkCall One get_meter_by_id [("id", childID)]])).
Proof.
  unfold adoptMeter, Meter_getByID, none, one, bind, query, get_this, ret, throw. simpl.
  destruct (has_id (meters (store h)) childID) eqn:Hhas.
  - destruct (lookup_id_present _ _ Hhas) as [n ->]. simpl.
    by rewrite <- app_assoc.
  - by rewrite (lookup_id_absent _ _ Hhas).
Qed.

(** * The group hierarchy on the backing store *)

(** C5: when the child id is not the id of a stored group, adoptGroup
    rejects with NotFound after the by-id lookup, and nothing else happens:
    the store, and so the group edges, are as before, the receiver is
    untouched and no edge statement is issued. *)
Theorem adoptGroup_missing_child (h : heap database) (childID : jsval) :
  has_id (groups (store h)) childID = false →
  adoptGroup run_sql childID h
  = (Rejected NotFound,
     mkHeap (this h) (store h) (calls h ++ [mkCall One get_group_by_id [("id", childID)]])) ∧
  child_groups (store (adoptGroup run_sql childID h).2) = child_groups (store h).
Proof. intros Hno. rewrite adoptGroup_run, Hno. done. Qed.

Lemma adoptGroup_missing_child_witness :
  adoptGroup run_sql (JNum 7) (on (mkGroup (JNum 1) (JStr "A")) db_two)
  = (Rejected NotFound,
     mkHeap (mkGroup (JNum 1) (JStr "A")) db_two
       [mkCall One get_group_by_id [("id", JNum 7)]]) ∧
  child_groups (store (adoptGroup run_sql (JNum 7) (on (mkGroup (JNum 1) (JStr "A")) db_two)).2)
  = [(JNum 1, JNum 2)].
Proof.
  apply (adoptGroup_missing_child (on (mkGroup (JNum 1) (JStr "A")) db_two) (JNum 7)).
  reflexivity.
Defined.

(** C9: adoptGroup and adoptMeter validate only the child.  On every database
    they issue the child's by-id lookup and at most the edge statement, whose
    parent is whatever this.id holds; no statement looks the parent up.  On
    the backing store they resolve exactly when the child id is stored, and
    the edge (this.id, childID) is then in the relation, for every receiver,
    a never-inserted one (this.id undefined) included. *)
Theorem adopt_checks_child_only :
  (∀ (DB : Type) (exec : sqlFile → obj → DB → dberror + (list obj * DB))
     (h : heap DB) (childID : jsval),
     (∃ rest, calls (adoptGroup exec childID h).2
              = calls h ++ mkCall One get_group_by_id [("id", childID)] :: rest ∧
              (rest = [] ∨
               ∃ c, rest = [mkCall None_ associate_child_group_with_parent_group
                              [("parent_id", id (this h)); ("child_id", c)]])) ∧
     (∃ rest, calls (adoptMeter exec childID h).2
              = calls h ++ mkCall One get_meter_by_id [("id", childID)] :: rest ∧
              (rest = [] ∨
               ∃ c, rest = [mkCall None_ associate_child_meter_with_parent_group
                              [("group_id", id (this h)); ("meter_id", c)]]))) ∧
  (∀ (h : heap database) (childID : jsval),
     is_resolved (adoptGroup run_sql childID h).1 = has_id (groups (store h)) childID ∧
     is_resolved (adoptMeter run_sql childID h).1 = has_id (meters (store h)) childID ∧
     (has_id (groups (store h)) childID = true →
      (id (this h), childID) ∈ child_groups (store (adoptGroup run_sql childID h).2)) ∧
     (has_id (meters (store h)) childID = true →
      (id (this h), childID) ∈ child_meters (store (adoptMeter run_sql childID h).2))) ∧
  (∀ (db : database) (n childID : jsval),
     has_id (groups db) childID = true →
     (JUndefined, childID)
     ∈ child_groups (store (adoptGroup run_sql childID (on (mkGroup JUndefined n) db)).2)).
Proof.
  split; [|split].
  - intros DB exec h childID. split; [apply adoptGroup_calls|apply adoptMeter_calls].
  - intros h childID. rewrite adoptGroup_run, adoptMeter_run.
    split; [by destruct (has_id _ _)|]. split; [by destruct (has_id _ _)|].
    split; intros ->; simpl; apply elem_of_add_edge; by left.
  - intros db n childID Hhas. rewrite adoptGroup_run. simpl. rewrite Hhas. simpl.
    apply elem_of_add_edge. by left.
Qed.

Lemma adopt_checks_child_only_witness :
  (JUndefined, JNum 2)
  ∈ child_groups (store (adoptGroup run_sql (JNum 2)
                           (on (mkGroup JUndefined (JStr "N")) db_two)).2) ∧
  (JNum 2, JNum 10)
  ∈ child_meters (store (adoptMeter run_sql (JNum 10)
                           (on (mkGroup (JNum 2) (JStr "B")) db_two)).2).
Proof.
  destruct adopt_checks_child_only as (_ & Hstore & Hundef). split.
  - apply (Hundef db_two (JStr "N") (JNum 2)). reflexivity.
  - apply (Hstore (on (mkGroup (JNum 2) (JStr "B")) db_two) (JNum 10)). reflexivity.
Defined.

(** C6, as the code has it: a group whose id is assigned is refused by
    insert with the "already has an ID" error before the connection is
    touched: on every database the heap (store, call log, receiver) is
    returned as it was.  A group whose id is undefined and whose name no
    stored group has is persisted under a new id, which insert assigns to
    this.id. *)
Theorem insert_precondition :
  (∀ (DB : Type) (exec : sqlFile → obj → DB → dberror + (list obj * DB)) (h : heap DB),
     id (this h) ≠ JUndefined →
     insert exec h
     = (Rejected (JsError "Attempt to insert a group that already has an ID"), h)) ∧
  (∀ h : heap database,
     id (this h) = JUndefined →
     ids_named (groups (store h)) (name (this h)) = [] →
     groups (store h) !! fresh_id (groups (store h)) = None ∧
     insert run_sql h
     = (Resolved (),
        mkHeap (mkGroup (JNum (fresh_id (groups (store h)))) (name (this h)))
          (mkDatabase (<[fresh_id (groups (store h)) := name (this h)]> (groups (store h)))
             (meters (store h)) (child_groups (store h)) (child_meters (store h)))
          (calls h ++ [mkCall One insert_new_group (Group_obj (this h))]))).
Proof.
  split.
  - intros DB exec h. apply insert_assigned_id.
  - intros h Hid Hname. split; [apply fresh_id_fresh|].
    unfold insert, one, bind, query, get_this, set_this_id, ret, throw.
    rewrite decide_False by (by rewrite Hid; intros []).
    simpl. by rewrite Hname.
Qed.

Lemma insert_precondition_witness :
  insert run_sql (on (mkGroup (JNum 1) (JStr "A")) db_two)
  = (Rejected (JsError "Attempt to insert a group that already has an ID"),
     on (mkGroup (JNum 1) (JStr "A")) db_two) ∧
  (insert run_sql (on (mkGroup JUndefined (JStr "C")) db_two)).1 = Resolved () ∧
  this (insert run_sql (on (mkGroup JUndefined (JStr "C")) db_two)).2
  = mkGroup (JNum 3) (JStr "C").
Proof.
  destruct insert_precondition as [Hset Hnew]. split.
  - apply (Hset database run_sql (on (mkGroup (JNum 1) (JStr "A")) db_two)). discriminate.
  - destruct (Hnew (on (mkGroup JUndefined (JStr "C")) db_two)) as [_ ->];
      [reflexivity|reflexivity|]. split; reflexivity.
Defined.

(** C6, as the spec has it, fails: a group with an undefined id is not always
    persisted.  Group A is stored in [db_two]; inserting a new group with
    the name A and an undefined id reaches the store, which refuses the row
    with Conflict: the store keeps its rows and this.id stays undefined. *)
Lemma insert_duplicate_name_rejected :
  id (this (on (mkGroup JUndefined (JStr "A")) db_two)) = JUndefined ∧
  insert run_sql (on (mkGroup JUndefined (JStr "A")) db_two)
  = (Rejected (DbError Conflict),
     mkHeap (mkGroup JUndefined (JStr "A")) db_two
       [mkCall One insert_new_group [("id", JUndefined); ("name", JStr "A")]]) ∧
  is_resolved (insert run_sql (on (mkGroup JUndefined (JStr "A")) db_two)).1 = false.
Proof. split; [reflexivity|]. split; reflexivity. Qed.

Lemma ids_named_within (t : gmap Z jsval) n i :
  ids_named t n ⊆ [i] ↔ ∀ j, t !! j = Some n → j = i.
Proof.
  split.
  - intros Hsub j Hj%elem_of_ids_named. by apply Hsub, list_elem_of_singleton in Hj.
  - intros Hall j Hj%elem_of_ids_named. apply list_elem_of_singleton. by apply Hall.
Qed.

(** C7: for a stored group, rename to a name that another stored group has
    is rejected with Conflict and the store keeps its rows; rename to a name
    that no other group has resolves and the group's row carries the new
    name, the other rows and the edges being as before. *)
Theorem rename_unique_name (h : heap database) (i : Z) (newName : jsval) :
  id (this h) = JNum i →
  is_Some (groups (store h) !! i) →
  ((∃ j, j ≠ i ∧ groups (store h) !! j = Some newName) →
   rename run_sql newName h
   = (Rejected (DbError Conflict),
      mkHeap (this h) (store h)
        (calls h ++ [mkCall None_ rename_group [("new_name", newName); ("id", JNum i)]]))) ∧
  ((∀ j, groups (store h) !! j = Some newName → j = i) →
   (rename run_sql newName h).1 = Resolved () ∧
   store (rename run_sql newName h).2
   = mkDatabase (<[i := newName]> (groups (store h))) (meters (store h))
       (child_groups (store h)) (child_meters (store h)) ∧
   groups (store (rename run_sql newName h).2) !! i = Some newName ∧
   (∀ j, j ≠ i →
         groups (store (rename run_sql newName h).2) !! j = groups (store h) !! j)).
Proof.
  intros Hid [old Hold].
  unfold rename, none, bind, query, get_this, ret, throw. simpl.
  rewrite Hid. simpl. rewrite Hold. split.
  - intros (j & Hne & Hj). rewrite decide_False; [done|].
    intros Hsub. by apply Hne, (proj1 (ids_named_within _ _ _) Hsub).
  - intros Huniq. rewrite decide_True by (by apply ids_named_within). simpl.
    repeat split; [apply lookup_insert_eq|]. intros j Hne. by apply lookup_insert_ne.
Qed.

Lemma rename_unique_name_witness :
  rename run_sql (JStr "B") (on (mkGroup (JNum 1) (JStr "A")) db_two)
  = (Rejected (DbError Conflict),
     mkHeap (mkGroup (JNum 1) (JStr "A")) db_two
       [mkCall None_ rename_group [("new_name", JStr "B"); ("id", JNum 1)]]) ∧
  groups (store (rename run_sql (JStr "Z") (on (mkGroup (JNum 1) (JStr "A")) db_two)).2) !! 1
  = Some (JStr "Z").
Proof.
  split.
  - apply (rename_unique_name (on (mkGroup (JNum 1) (JStr "A")) db_two) 1 (JStr "B")).
    + reflexivity.
    + by exists (JStr "A").
    + exists 2. split; [lia|reflexivity].
  - apply (rename_unique_name (on (mkGroup (JNum 1) (JStr "A")) db_two) 1 (JStr "Z")).
    + reflexivity.
    + by exists (JStr "A").
    + intros j Hj%elem_of_ids_named. vm_compute in Hj. by apply elem_of_nil in Hj.
Defined.

(** C8: disownGroup and disownMeter never fail; they remove the row
    (this.id, childID) and no other row, in either edge relation; a second
    run leaves the store of the first; and when the row is not there the
    store is left as it was. *)
Theorem disown_absent_edge_noop (h : heap database) (childID : jsval) :
  ((disownGroup run_sql childID h).1 = Resolved () ∧
   (∀ e, e ∈ child_groups (store (disownGroup run_sql childID h).2)
         ↔ e ∈ child_groups (store h) ∧ e ≠ (id (this h), childID)) ∧
   child_meters (store (disownGroup run_sql childID h).2) = child_meters (store h) ∧
   store (disownGroup run_sql childID (disownGroup run_sql childID h).2).2
   = store (disownGroup run_sql childID h).2 ∧
   ((id (this h), childID) ∉ child_groups (store h) →
    store (disownGroup run_sql childID h).2 = store h)) ∧
  ((disownMeter run_sql childID h).1 = Resolved () ∧
   (∀ e, e ∈ child_meters (store (disownMeter run_sql childID h).2)
         ↔ e ∈ child_meters (store h) ∧ e ≠ (id (this h), childID)) ∧
   child_groups (store (disownMeter run_sql childID h).2) = child_groups (store h) ∧
   store (disownMeter run_sql childID (disownMeter run_sql childID h).2).2
   = store (disownMeter run_sql childID h).2 ∧
   ((id (this h), childID) ∉ child_meters (store h) →
    store (disownMeter run_sql childID h).2 = store h)).
Proof.
  destruct h as [g [gs ms cg cm] cs].
  unfold disownGroup, disownMeter, none, bind, query, get_this, ret, throw. simpl.
  split; (split; [done|]); (split; [intros e; apply elem_of_remove_edge|]); (split; [done|]);
    (split; [by rewrite remove_edge_idemp|]); intros Habs; by rewrite remove_edge_absent.
Qed.

Lemma disown_absent_edge_noop_witness :
  store (disownGroup run_sql (JNum 1) (on (mkGroup (JNum 2) (JStr "B")) db_two)).2 = db_two ∧
  store (disownMeter run_sql (JNum 10) (on (mkGroup (JNum 2) (JStr "B")) db_two)).2 = db_two.
Proof.
  destruct (disown_absent_edge_noop (on (mkGroup (JNum 2) (JStr "B")) db_two) (JNum 1))
    as [(_ & _ & _ & _ & Hg) _].
  destruct (disown_absent_edge_noop (on (mkGroup (JNum 2) (JStr "B")) db_two) (JNum 10))
    as [_ (_ & _ & _ & _ & Hm)].
  split; [apply Hg|apply Hm]; by apply (bool_decide_unpack _).
Defined.

(** C3, as the code has it: delete takes no cascade option and never fails
    with Conflict, also for a group that still has parents or children; it
    always removes the group's row and every edge that mentions the group, in
    both directions, and leaves the other groups alone, so that afterwards
    getImmediateGroupsByGroupID of that id and getParents of a group with
    that id resolve with the empty list. *)
Theorem delete_purges_group (h : heap database) (groupID : jsval) :
  (delete run_sql groupID h).1 = Resolved () ∧
  has_id (groups (store (delete run_sql groupID h).2)) groupID = false ∧
  (∀ j, JNum j ≠ groupID →
        groups (store (delete run_sql groupID h).2) !! j = groups (store h) !! j) ∧
  (∀ e, e ∈ child_groups (store (delete run_sql groupID h).2)
        ↔ e ∈ child_groups (store h) ∧ e.1 ≠ groupID ∧ e.2 ≠ groupID) ∧
  (∀ g cs, (getImmediateGroupsByGroupID run_sql groupID
              (mkHeap g (store (delete run_sql groupID h).2) cs)).1 = Resolved []) ∧
  (∀ n cs, (getParents run_sql
              (mkHeap (mkGroup groupID n) (store (delete run_sql groupID h).2) cs)).1
           = Resolved []).
Proof.
  unfold delete, getImmediateGroupsByGroupID, getParents, none, any, bind, query,
    get_this, ret, throw. simpl.
  split; [done|]. split; [|split; [|split; [|split]]].
  - destruct groupID as [| |i|]; try done. simpl. apply bool_decide_eq_false.
    rewrite lookup_delete_eq. by intros [? ?].
  - intros j Hne. destruct groupID as [| |i|]; try done.
    apply lookup_delete_ne. congruence.
  - intros e. apply elem_of_purge.
  - intros g cs. rewrite children_nil; [done|].
    intros y (_ & Hp & _)%elem_of_purge. done.
  - intros n cs. rewrite parents_nil; [done|].
    intros x (_ & _ & Hc)%elem_of_purge. done.
Qed.

(** C3, as the spec has it, fails: group 1 of [db_two] still has a child
    group and a child meter, and delete resolves instead of failing with
    Conflict. *)
Lemma delete_referenced_group_resolves :
  (JNum 1, JNum 2) ∈ child_groups db_two ∧
  (delete run_sql (JNum 1) (on (mkGroup (JNum 1) (JStr "A")) db_two)).1 = Resolved () ∧
  (delete run_sql (JNum 1) (on (mkGroup (JNum 1) (JStr "A")) db_two)).1
  ≠ Rejected (DbError Conflict) ∧
  child_groups (store (delete run_sql (JNum 1) (on (mkGroup (JNum 1) (JStr "A")) db_two)).2)
  = [].
Proof. split; [by apply (bool_decide_unpack _)|]. by repeat split. Qed.

(** C1, as the code has it: adoptGroup makes no cycle check.  When the child
    is a stored group the call resolves and the row (this.id, childID) is in
    the relation, whatever the parent; from an acyclic relation the result is
    acyclic exactly when the parent is neither the child nor one of the
    child's deep descendants. *)
Theorem adoptGroup_adds_edge_unchecked (h : heap database) (childID : jsval) :
  has_id (groups (store h)) childID = true →
  acyclic (child_groups (store h)) →
  (adoptGroup run_sql childID h).1 = Resolved () ∧
  child_groups (store (adoptGroup run_sql childID h).2)
  = add_edge (id (this h), childID) (child_groups (store h)) ∧
  (acyclic (child_groups (store (adoptGroup run_sql childID h).2))
   ↔ id (this h) ≠ childID ∧
     id (this h) ∉ deep_children (child_groups (store h)) childID).
Proof.
  intros Hhas Hac. rewrite adoptGroup_run, Hhas. simpl.
  split; [done|]. split; [done|]. by apply acyclic_add_edge.
Qed.

Lemma adoptGroup_adds_edge_unchecked_witness :
  (adoptGroup run_sql (JNum 2) (on (mkGroup (JNum 1) (JStr "A")) db_diamond)).1 = Resolved () ∧
  acyclic (child_groups
             (store (adoptGroup run_sql (JNum 4) (on (mkGroup (JNum 1) (JStr "A")) db_diamond)).2)).
Proof.
  split.
  - apply (adoptGroup_adds_edge_unchecked (on (mkGroup (JNum 1) (JStr "A")) db_diamond) (JNum 2)).
    + reflexivity.
    + apply acyclicb_acyclic. reflexivity.
  - apply (adoptGroup_adds_edge_unchecked (on (mkGroup (JNum 1) (JStr "A")) db_diamond) (JNum 4)).
    + reflexivity.
    + apply acyclicb_acyclic. reflexivity.
    + split; [discriminate|]. by apply (bool_decide_unpack _).
Defined.

(** C1, as the spec has it, fails: in [db_two] group 2 is a child of group 1
    and the relation is acyclic; group 2 adopts group 1, the call resolves
    and the relation has the cycle 1 → 2 → 1.  A group adopting itself is
    accepted the same way. *)
Lemma adoptGroup_accepts_cycle :
  acyclic (child_groups db_two) ∧
  JNum 2 ∈ deep_children (child_groups db_two) (JNum 1) ∧
  (adoptGroup run_sql (JNum 1) (on (mkGroup (JNum 2) (JStr "B")) db_two)).1 = Resolved () ∧
  child_groups (store (adoptGroup run_sql (JNum 1) (on (mkGroup (JNum 2) (JStr "B")) db_two)).2)
  = [(JNum 1, JNum 2); (JNum 2, JNum 1)] ∧
  ¬ acyclic (child_groups
               (store (adoptGroup run_sql (JNum 1) (on (mkGroup (JNum 2) (JStr "B")) db_two)).2)) ∧
  (adoptGroup run_sql (JNum 1) (on (mkGroup (JNum 1) (JStr "A")) db_two)).1 = Resolved () ∧
  ¬ acyclic (child_groups
               (store (adoptGroup run_sql (JNum 1) (on (mkGroup (JNum 1) (JStr "A")) db_two)).2)).
Proof.
  split; [apply acyclicb_acyclic; reflexivity|].
  split; [by apply (bool_decide_unpack _)|].
  split; [reflexivity|]. split; [reflexivity|].
  split; [|split; [reflexivity|]].
  - intros Hac%acyclicb_acyclic. vm_compute in Hac. discriminate.
  - intros Hac%acyclicb_acyclic. vm_compute in Hac. discriminate.
Qed.

(** C4: getDeepGroupsByGroupID resolves, on every store (so also on a
    diamond), with the ids reached from the given id by one or more child
    edges, each of them once; the store is left as it was; and two stores
    whose edge relations hold the same rows in a different order give the
    same ids up to their order. *)
Theorem getDeepGroupsByGroupID_closure (h : heap database) (i : jsval) :
  ∃ ids,
    getDeepGroupsByGroupID run_sql i h
    = (Resolved ids,
       mkHeap (this h) (store h)
         (calls h ++ [mkCall Any get_deep_groups_by_group_id [("id", i)]])) ∧
    NoDup ids ∧
    (∀ x, x ∈ ids ↔ tc (edge (child_groups (store h))) i x) ∧
    (∀ h' : heap database,
       child_groups (store h) ≡ₚ child_groups (store h') →
       ∃ ids', (getDeepGroupsByGroupID run_sql i h').1 = Resolved ids' ∧ ids ≡ₚ ids').
Proof.
  exists (deep_children (child_groups (store h)) i).
  unfold getDeepGroupsByGroupID, any, bind, query, ret. simpl.
  rewrite !column_prop. split; [done|].
  split; [apply NoDup_deep_children|]. split; [apply elem_of_deep_children|].
  intros h' Hperm. eexists. rewrite column_prop. split; [done|].
  apply NoDup_Permutation; [apply NoDup_deep_children..|].
  intros x. rewrite !elem_of_deep_children.
  split; apply tc_congruence with (f := λ y, y); intros a b; unfold edge;
    by rewrite Hperm.
Qed.

Lemma getDeepGroupsByGroupID_closure_witness :
  ∃ ids, (getDeepGroupsByGroupID run_sql (JNum 1)
            (on (mkGroup (JNum 1) (JStr "A")) db_diamond)).1 = Resolved ids ∧
         ∃ ids', (getDeepGroupsByGroupID run_sql (JNum 1)
                    (on (mkGroup (JNum 1) (JStr "A")) db_diamond_rev)).1 = Resolved ids' ∧
                 ids ≡ₚ ids'.
Proof.
  destruct (getDeepGroupsByGroupID_closure (on (mkGroup (JNum 1) (JStr "A")) db_diamond) (JNum 1))
    as (ids & Hrun & _ & _ & Hperm).
  exists ids. split; [by rewrite Hrun|].
  apply (Hperm (on (mkGroup (JNum 1) (JStr "A")) db_diamond_rev)).
  simpl. apply Permutation_rev.
Defined.

(** * The update cycle *)
Section UpdateCycleFacts.
Import UpdateMeters.
Variable dataReader : DataReader.
Implicit Types (ms : list Meter) (rows : list Reading).

Lemma updateMeter_rows m rows :
  (updateMeter dataReader m rows).2 = rows ++ option_list (accepted dataReader m).
Proof.
  unfold updateMeter, accepted. destruct (dataReader m) as [r|e]; simpl.
  - destruct (valid r); simpl; [done|by rewrite app_nil_r].
  - by rewrite app_nil_r.
Qed.

(** The cycle appends to the store the readings of the meters that
    succeed, in the order of the meters. *)
Lemma runUpdateCycle_rows ms rows :
  (runUpdateCycle dataReader ms rows).2 = rows ++ omap (accepted dataReader) ms.
Proof.
  revert rows. induction ms as [|m ms IH]; intros rows; simpl.
  - by rewrite app_nil_r.
  - pose proof (updateMeter_rows m rows) as Hm.
    destruct (updateMeter dataReader m rows) as [o rows1]. simpl in Hm.
    specialize (IH rows1).
    destruct (runUpdateCycle dataReader ms rows1) as [report rows2]. simpl in *.
    subst. rewrite <- app_assoc. by destruct (accepted dataReader m).
Qed.

(** Every meter of the input gets its entry in the report. *)
Lemma runUpdateCycle_report ms rows :
  (runUpdateCycle dataReader ms rows).1.*1 = ms.
Proof.
  revert rows. induction ms as [|m ms IH]; intros rows; simpl; [done|].
  destruct (updateMeter dataReader m rows) as [o rows1].
  specialize (IH rows1).
  destruct (runUpdateCycle dataReader ms rows1) as [report rows2]. simpl in *.
  by f_equal.
Qed.

Lemma accepted_attributed ms m r :
  attributed dataReader ms → m ∈ ms → accepted dataReader m = Some r →
  meterID r = id m.
Proof.
  intros Hattr Hm. unfold accepted.
  destruct (dataReader m) as [r'|e] eqn:Hr; [|done].
  destruct (valid r'); [|done]. intros [= <-]. by apply (Hattr m).
Qed.

Lemma accepted_of_others ms i :
  attributed dataReader ms → i ∉ id <$> ms →
  filter (λ r, meterID r = i) (omap (accepted dataReader) ms) = [].
Proof.
  intros Hattr Hni. induction ms as [|a ms IH]; [done|].
  apply not_elem_of_cons in Hni as [Hne Hni]. simpl.
  assert (attributed dataReader ms) as Hattr'.
  { intros m r Hm. apply Hattr. by right. }
  destruct (accepted dataReader a) as [r|] eqn:Ha; [|by apply IH].
  rewrite filter_cons_False; [by apply IH|].
  rewrite (accepted_attributed (a :: ms) a r); [done|done|left|done].
Qed.

Lemma accepted_of_meter ms m :
  NoDup (id <$> ms) → attributed dataReader ms → m ∈ ms →
  filter (λ r, meterID r = id m) (omap (accepted dataReader) ms)
  = option_list (accepted dataReader m).
Proof.
  intros Hnd Hattr Hm. induction ms as [|a ms IH]; [by apply elem_of_nil in Hm|].
  apply NoDup_cons in Hnd as [Hna Hnd].
  assert (attributed dataReader ms) as Hattr'.
  { intros m' r Hm'. apply Hattr. by right. }
  apply elem_of_cons in Hm as [->|Hm]; simpl.
  - destruct (accepted dataReader a) as [r|] eqn:Ha; simpl.
    + rewrite filter_cons_True.
      * by rewrite accepted_of_others.
      * apply (accepted_attributed (a :: ms)); [done|left|done].
    + by apply accepted_of_others.
  - assert (id a ≠ id m) as Hne.
    { intros Heq. apply Hna. rewrite Heq. by apply list_elem_of_fmap_2. }
    destruct (accepted dataReader a) as [r|] eqn:Ha; [|by apply IH].
    rewrite filter_cons_False; [by apply IH|].
    rewrite (accepted_attributed (a :: ms) a r); [done|done|left|done].
Qed.

(** C2: in a cycle over meters with distinct ids, read by a reader that
    answers each meter with a reading of that meter, every meter is
    processed; a meter whose fetch succeeds with a valid reading has that
    one reading added to its persisted readings, and every other meter of
    the cycle, whose fetch is rejected or whose reading is invalid, has its
    readings unchanged, whatever happens to the other meters; so do the
    meters that are not in the cycle. *)
Theorem runUpdateCycle_isolates_failures ms rows :
  NoDup (id <$> ms) →
  attributed dataReader ms →
  (runUpdateCycle dataReader ms rows).1.*1 = ms ∧
  (∀ m, m ∈ ms →
    (succeeds dataReader m = true →
     ∃ r, dataReader m = Resolved r ∧
          Reading_getAllByMeterID (id m) (runUpdateCycle dataReader ms rows).2
          = Reading_getAllByMeterID (id m) rows ++ [r] ∧
          length (Reading_getAllByMeterID (id m) (runUpdateCycle dataReader ms rows).2)
          = S (length (Reading_getAllByMeterID (id m) rows))) ∧
    (succeeds dataReader m = false →
     Reading_getAllByMeterID (id m) (runUpdateCycle dataReader ms rows).2
     = Reading_getAllByMeterID (id m) rows)) ∧
  (∀ i, i ∉ id <$> ms →
     Reading_getAllByMeterID i (runUpdateCycle dataReader ms rows).2
     = Reading_getAllByMeterID i rows).
Proof.
  intros Hnd Hattr. split; [apply runUpdateCycle_report|]. split; cycle 1.
  { intros i Hi. unfold Reading_getAllByMeterID.
    rewrite runUpdateCycle_rows, filter_app, (accepted_of_others ms i Hattr Hi).
    by rewrite app_nil_r. }
  intros m Hm. unfold Reading_getAllByMeterID.
  rewrite runUpdateCycle_rows, filter_app, (accepted_of_meter ms m Hnd Hattr Hm).
  unfold succeeds, accepted. destruct (dataReader m) as [r|e]; simpl.
  - split; intros ->; simpl; [|by rewrite app_nil_r].
    exists r. split; [done|]. split; [done|]. rewrite length_app. simpl. lia.
  - split; [done|]. intros _. by rewrite app_nil_r.
Qed.
End UpdateCycleFacts.

(** The test "can persist over a failed request": the good meter has one
    reading and the bad meter has none. *)
Lemma runUpdateCycle_isolates_failures_witness :
  length (UpdateMeters.Reading_getAllByMeterID (UpdateMeters.id UpdateMeters.goodMeter)
            (UpdateMeters.runUpdateCycle UpdateMeters.stubReader
               [UpdateMeters.goodMeter; UpdateMeters.badMeter] []).2) = 1%nat ∧
  length (UpdateMeters.Reading_getAllByMeterID (UpdateMeters.id UpdateMeters.badMeter)
            (UpdateMeters.runUpdateCycle UpdateMeters.stubReader
               [UpdateMeters.goodMeter; UpdateMeters.badMeter] []).2) = 0%nat.
Proof.
  destruct (runUpdateCycle_isolates_failures UpdateMeters.stubReader
              [UpdateMeters.goodMeter; UpdateMeters.badMeter] []) as (_ & Hall & _).
  - apply (bool_decide_unpack _). reflexivity.
  - intros m r [->|[->|[]%elem_of_nil]%elem_of_cons]%elem_of_cons; vm_compute;
      intros Heq; inversion Heq; reflexivity.
  - split.
    + destruct (Hall UpdateMeters.goodMeter) as [Hgood _]; [left|].
      destruct Hgood as (r & _ & _ & ->); reflexivity.
    + destruct (Hall UpdateMeters.badMeter) as [_ Hbad]; [right; left|].
      rewrite Hbad; reflexivity.
Defined.

(** * Further facts over every database *)
Section MethodFacts.
Context {DB : Type}.
Variable exec : sqlFile → obj → DB → dberror + (list obj * DB).
Implicit Types h : heap DB.

Lemma any_this f p h : this (any exec f p h).2 = this h.
Proof. apply query_this. Qed.

Lemma any_calls f p h : calls (any exec f p h).2 = calls h ++ [mkCall Any f p].
Proof. apply query_calls. Qed.

(** A computation that stops after its first step when that step rejects. *)
Lemma bind_this {A B} (m : M A) (k : A → M B) h :
  this (m h).2 = this h →
  (∀ a h', this (k a h').2 = this h') →
  this (bind m k h).2 = this h.
Proof.
  intros Hm Hk. unfold bind. destruct (m h) as [[a|e] h'] eqn:Hmh; simpl in *.
  - by rewrite Hk.
  - done.
Qed.

Lemma bind_rejected {A B} (m : M A) (k : A → M B) h e :
  (m h).1 = Rejected e → bind m k h = (Rejected e, (m h).2).
Proof. unfold bind. destruct (m h) as [[a|e'] h']; simpl; [done|by intros [= ->]]. Qed.

Lemma bind_resolved {A B} (m : M A) (k : A → M B) h a :
  (m h).1 = Resolved a → bind m k h = k a (m h).2.
Proof. unfold bind. destruct (m h) as [[a'|e] h']; simpl; [by intros [= ->]|done]. Qed.

Lemma getByID_this h v : this (getByID exec v h).2 = this h.
Proof. unfold getByID. apply bind_this; [apply one_this|done]. Qed.

Lemma Meter_getByID_this h v : this (Meter_getByID exec v h).2 = this h.
Proof. unfold Meter_getByID. apply bind_this; [apply one_this|done]. Qed.

(** The receiver of a method is assigned by [insert] only: the other
    mutators ([adoptGroup], [adoptMeter], [disownGroup], [disownMeter],
    [delete]) and all the queries return the in-memory group as they found
    it, on every database and whether they resolve or reject. *)
Theorem receiver_assigned_by_insert_only (h : heap DB) (v : jsval) :
  this (adoptGroup exec v h).2 = this h ∧
  this (adoptMeter exec v h).2 = this h ∧
  this (disownGroup exec v h).2 = this h ∧
  this (disownMeter exec v h).2 = this h ∧
  this (delete exec v h).2 = this h ∧
  this (getParents exec h).2 = this h ∧
  this (getByID exec v h).2 = this h ∧
  this (getByName exec v h).2 = this h ∧
  this (getAll exec h).2 = this h ∧
  this (getImmediateGroupsByGroupID exec v h).2 = this h ∧
  this (getImmediateMetersByGroupID exec v h).2 = this h ∧
  this (getDeepGroupsByGroupID exec v h).2 = this h ∧
  this (getDeepMetersByGroupID exec v h).2 = this h.
Proof.
  unfold adoptGroup, adoptMeter, disownGroup, disownMeter, delete, getParents,
    getByID, getByName, Meter_getByID, getAll, getImmediateGroupsByGroupID,
    getImmediateMetersByGroupID, getDeepGroupsByGroupID, getDeepMetersByGroupID.
  repeat split;
    repeat (first [ apply none_this | apply one_this | apply any_this
                  | done
                  | apply bind_this; [|intros ? ?] ]).
Qed.

(** [insert] and the receiver.  The name is never assigned.  A rejected
    insert, whatever the reason (the id was set, the database refused the
    row, the statement did not return exactly one row), leaves the receiver
    as it was, so an id that was undefined stays undefined.  A resolved
    insert started from an undefined id, ran one statement that returned
    exactly one row, and assigned that row's [id] column to [this.id]. *)
Theorem insert_receiver (h : heap DB) :
  name (this (insert exec h).2) = name (this h) ∧
  (∀ e, (insert exec h).1 = Rejected e → this (insert exec h).2 = this h) ∧
  ((insert exec h).1 = Resolved () →
   id (this h) = JUndefined ∧
   ∃ row, exec insert_new_group (Group_obj (this h)) (store h)
          = inr ([row], store (insert exec h).2) ∧
          this (insert exec h).2 = mkGroup (prop row "id") (name (this h)) ∧
          calls (insert exec h).2
          = calls h ++ [mkCall One insert_new_group (Group_obj (this h))]).
Proof.
  unfold insert, one, bind, query, get_this, set_this_id, ret, throw.
  case_decide as Hid; simpl; [by repeat split|].
  destruct (exec insert_new_group (Group_obj (this h)) (store h))
    as [e|[[|row [|row' rows]] db']]; simpl; (split; [done|]); (split; [done|]);
    try done.
  intros _. split; [done|]. by exists row.
Qed.

(** The queries built on [conn().any] ([getAll], the immediate and deep
    children queries, [getParents]) never reject on their own: they issue one
    statement; when the database answers it, with any number of rows and so
    also with none, they resolve with one value per row, in row order, and
    when the database refuses it, its error is the rejection. *)
Theorem any_queries_resolve (h : heap DB) (v : jsval) :
  (∀ rows db', exec get_all_groups [] (store h) = inr (rows, db') →
     (getAll exec h).1 = Resolved (map mapRow rows)) ∧
  (∀ rows db', exec get_immediate_groups_by_group_id [("id", v)] (store h) = inr (rows, db') →
     (getImmediateGroupsByGroupID exec v h).1
     = Resolved (map (λ row, prop row "child_id") rows)) ∧
  (∀ rows db', exec get_immediate_meters_by_group_id [("id", v)] (store h) = inr (rows, db') →
     (getImmediateMetersByGroupID exec v h).1
     = Resolved (map (λ row, prop row "meter_id") rows)) ∧
  (∀ rows db', exec get_deep_groups_by_group_id [("id", v)] (store h) = inr (rows, db') →
     (getDeepGroupsByGroupID exec v h).1
     = Resolved (map (λ row, prop row "child_id") rows)) ∧
  (∀ rows db', exec get_deep_meters_by_group_id [("id", v)] (store h) = inr (rows, db') →
     (getDeepMetersByGroupID exec v h).1
     = Resolved (map (λ row, prop row "meter_id") rows)) ∧
  (∀ rows db', exec get_parents_by_group_id [("child_id", id (this h))] (store h)
               = inr (rows, db') →
     (getParents exec h).1 = Resolved (map (λ row, prop row "parent_id") rows)) ∧
  (∀ e, (getAll exec h).1 = Rejected e ∨
        (getImmediateGroupsByGroupID exec v h).1 = Rejected e ∨
        (getImmediateMetersByGroupID exec v h).1 = Rejected e ∨
        (getDeepGroupsByGroupID exec v h).1 = Rejected e ∨
        (getDeepMetersByGroupID exec v h).1 = Rejected e ∨
        (getParents exec h).1 = Rejected e →
        ∃ d, e = DbError d).
Proof.
  unfold getAll, getImmediateGroupsByGroupID, getImmediateMetersByGroupID,
    getDeepGroupsByGroupID, getDeepMetersByGroupID, getParents,
    any, bind, query, get_this, ret.
  repeat split.
  1-6: by intros rows db' ->.
  simpl. intros e Hrej.
  repeat match type of Hrej with
         | _ ∨ _ => destruct Hrej as [Hrej|Hrej]
         end;
    match type of Hrej with
    | context [exec ?f ?p ?s] => destruct (exec f p s) as [d|[rows db']]
    end; simpl in Hrej; try done; inversion Hrej; by eexists.
Qed.

(** The lookups built on [conn().one] ([getByID], [getByName]) resolve only
    with a group built from a row of the answer, and only when the answer is
    that single row: on an empty answer they reject with the no-data error
    and on an answer of two or more rows with the multiple-rows error. *)
Theorem one_lookups_need_one_row (h : heap DB) (v : jsval) :
  (∀ g, (getByID exec v h).1 = Resolved g ↔
        ∃ row db', exec get_group_by_id [("id", v)] (store h) = inr ([row], db') ∧
                   g = mkGroup (prop row "id") (prop row "name")) ∧
  (∀ g, (getByName exec v h).1 = Resolved g ↔
        ∃ row db', exec get_group_by_name [("name", v)] (store h) = inr ([row], db') ∧
                   g = mkGroup (prop row "id") (prop row "name")) ∧
  (∀ db', exec get_group_by_id [("id", v)] (store h) = inr ([], db') →
          (getByID exec v h).1 = Rejected NotFound) ∧
  (∀ db', exec get_group_by_name [("name", v)] (store h) = inr ([], db') →
          (getByName exec v h).1 = Rejected NotFound) ∧
  (∀ r1 r2 rows db',
     exec get_group_by_id [("id", v)] (store h) = inr (r1 :: r2 :: rows, db') →
     (getByID exec v h).1 = Rejected (QueryResultError multiple)) ∧
  (∀ r1 r2 rows db',
     exec get_group_by_name [("name", v)] (store h) = inr (r1 :: r2 :: rows, db') →
     (getByName exec v h).1 = Rejected (QueryResultError multiple)).
Proof.
  unfold getByID, getByName, mapRow, one, bind, query, ret, throw.
  repeat split.
  - destruct (exec get_group_by_id _ _) as [d|[[|row [|row' rows]] db']]; simpl;
      try done. intros [= <-]. by exists row, db'.
  - intros (row & db' & -> & ->). done.
  - destruct (exec get_group_by_name _ _) as [d|[[|row [|row' rows]] db']]; simpl;
      try done. intros [= <-]. by exists row, db'.
  - intros (row & db' & -> & ->). done.
  - by intros db' ->.
  - by intros db' ->.
  - by intros r1 r2 rows db' ->.
  - by intros r1 r2 rows db' ->.
Qed.

(** [adoptGroup] is the lookup of the child followed by the edge statement:
    when [Group.getByID] rejects, for whatever reason, [adoptGroup] rejects
    with the same error on the heap the lookup left, and no edge statement is
    run; when the lookup resolves with a group, the outcome is that of the
    edge statement from [this.id] to the id of that group.  [adoptMeter] does
    the same with the lookup of the meter. *)
Theorem adopt_is_lookup_then_edge (h : heap DB) (childID : jsval) :
  (∀ e, (getByID exec childID h).1 = Rejected e →
        adoptGroup exec childID h = (Rejected e, (getByID exec childID h).2)) ∧
  (∀ child, (getByID exec childID h).1 = Resolved child →
            adoptGroup exec childID h
            = none exec associate_child_group_with_parent_group
                [("parent_id", id (this h)); ("child_id", id child)]
                (getByID exec childID h).2) ∧
  (∀ e, (Meter_getByID exec childID h).1 = Rejected e →
        adoptMeter exec childID h = (Rejected e, (Meter_getByID exec childID h).2)) ∧
  (∀ meter, (Meter_getByID exec childID h).1 = Resolved meter →
            adoptMeter exec childID h
            = none exec associate_child_meter_with_parent_group
                [("group_id", id (this h)); ("meter_id", meter_ref_id meter)]
                (Meter_getByID exec childID h).2).
Proof.
  unfold adoptGroup, adoptMeter. repeat split.
  - intros e He. by apply bind_rejected.
  - intros child Hc. rewrite (bind_resolved _ _ _ _ Hc).
    unfold bind, get_this. by rewrite getByID_this.
  - intros e He. by apply bind_rejected.
  - intros meter Hc. rewrite (bind_resolved _ _ _ _ Hc).
    unfold bind, get_this. by rewrite Meter_getByID_this.
Qed.
End MethodFacts.

(** ** The facts over every database, on the sample store *)

Lemma insert_receiver_witness :
  this (insert run_sql (on (mkGroup (JNum 1) (JStr "A")) db_two)).2
  = mkGroup (JNum 1) (JStr "A") ∧
  id (this (on (mkGroup JUndefined (JStr "C")) db_two)) = JUndefined.
Proof.
  split.
  - apply (insert_receiver run_sql (on (mkGroup (JNum 1) (JStr "A")) db_two)) with
      (e := JsError "Attempt to insert a group that already has an ID").
    reflexivity.
  - apply (insert_receiver run_sql (on (mkGroup JUndefined (JStr "C")) db_two)).
    reflexivity.
Defined.

Lemma any_queries_resolve_witness :
  (getImmediateGroupsByGroupID run_sql (JNum 1) (on (mkGroup (JNum 1) (JStr "A")) db_two)).1
  = Resolved [JNum 2] ∧
  (getImmediateGroupsByGroupID run_sql (JNum 7) (on (mkGroup (JNum 1) (JStr "A")) db_two)).1
  = Resolved [].
Proof.
  split.
  - apply (any_queries_resolve run_sql (on (mkGroup (JNum 1) (JStr "A")) db_two) (JNum 1))
      with (rows := [[("child_id", JNum 2)]]) (db' := db_two).
    reflexivity.
  - apply (any_queries_resolve run_sql (on (mkGroup (JNum 1) (JStr "A")) db_two) (JNum 7))
      with (rows := []) (db' := db_two).
    reflexivity.
Defined.

Lemma one_lookups_need_one_row_witness :
  (getByID run_sql (JNum 7) (on (mkGroup (JNum 1) (JStr "A")) db_two)).1 = Rejected NotFound ∧
  (getByName run_sql (JStr "X") (on (mkGroup (JNum 1) (JStr "A")) db_two)).1
  = Rejected NotFound.
Proof.
  split.
  - apply (one_lookups_need_one_row run_sql (on (mkGroup (JNum 1) (JStr "A")) db_two) (JNum 7))
      with (db' := db_two).
    reflexivity.
  - apply (one_lookups_need_one_row run_sql (on (mkGroup (JNum 1) (JStr "A")) db_two) (JStr "X"))
      with (db' := db_two).
    reflexivity.
Defined.

Lemma adopt_is_lookup_then_edge_witness :
  adoptGroup run_sql (JNum 7) (on (mkGroup (JNum 1) (JStr "A")) db_two)
  = (Rejected NotFound,
     (getByID run_sql (JNum 7) (on (mkGroup (JNum 1) (JStr "A")) db_two)).2) ∧
  adoptMeter run_sql (JNum 10) (on (mkGroup (JNum 2) (JStr "B")) db_two)
  = none run_sql associate_child_meter_with_parent_group
      [("group_id", JNum 2); ("meter_id", JNum 10)]
      (Meter_getByID run_sql (JNum 10) (on (mkGroup (JNum 2) (JStr "B")) db_two)).2.
Proof.
  split.
  - apply (adopt_is_lookup_then_edge run_sql (on (mkGroup (JNum 1) (JStr "A")) db_two) (JNum 7)).
    reflexivity.
  - apply (adopt_is_lookup_then_edge run_sql (on (mkGroup (JNum 2) (JStr "B")) db_two) (JNum 10))
      with (meter := mkMeterRef (JNum 10)).
    reflexivity.
Defined.

(** * Further facts on the backing store *)

Lemma NoDup_only (A : Type) (l : list A) (a : A) :
  NoDup l → a ∈ l → (∀ x, x ∈ l → x = a) → l = [a].
Proof.
  intros Hnd Ha Hall. destruct l as [|b l]; [by apply elem_of_nil in Ha|].
  assert (b = a) as -> by (apply Hall; left).
  apply NoDup_cons in Hnd as [Hna _]. f_equal.
  destruct l as [|c l]; [done|]. destruct Hna.
  assert (c = a) as -> by (apply Hall; right; left). left.
Qed.

Lemma elem_of_named_rows (t : gmap Z jsval) n r :
  r ∈ filter (λ r, r.2 = n) (map_to_list t) ↔ t !! r.1 = Some n ∧ r.2 = n.
Proof.
  rewrite list_elem_of_filter. destruct r as [j m]. simpl.
  rewrite elem_of_map_to_list. split; [by intros [-> ?]|by intros [? ->]].
Qed.

Lemma named_rows_one (t : gmap Z jsval) i n :
  t !! i = Some n → (∀ j, t !! j = Some n → j = i) →
  filter (λ r, r.2 = n) (map_to_list t) = [(i, n)].
Proof.
  intros Hi Huniq. apply NoDup_only.
  - apply NoDup_filter, NoDup_map_to_list.
  - by apply elem_of_named_rows.
  - intros [j m] [Hj Hm]%elem_of_named_rows. simpl in *. subst. f_equal. by apply Huniq.
Qed.

Lemma named_rows_none (t : gmap Z jsval) n :
  ids_named t n = [] → filter (λ r, r.2 = n) (map_to_list t) = [].
Proof. unfold ids_named. apply fmap_nil_inv. Qed.

Lemma getByID_stored (h : heap database) i n :
  groups (store h) !! i = Some n →
  getByID run_sql (JNum i) h
  = (Resolved (mkGroup (JNum i) n),
     mkHeap (this h) (store h) (calls h ++ [mkCall One get_group_by_id [("id", JNum i)]])).
Proof.
  intros Hi. unfold getByID, one, bind, query, ret, throw. simpl. by rewrite Hi.
Qed.

Lemma getByID_missing (h : heap database) v :
  has_id (groups (store h)) v = false →
  getByID run_sql v h
  = (Rejected NotFound,
     mkHeap (this h) (store h) (calls h ++ [mkCall One get_group_by_id [("id", v)]])).
Proof.
  intros Hno. unfold getByID, one, bind, query, ret, throw. simpl.
  by rewrite (lookup_id_absent _ _ Hno).
Qed.

Lemma getByName_one (h : heap database) i n :
  groups (store h) !! i = Some n → (∀ j, groups (store h) !! j = Some n → j = i) →
  (getByName run_sql n h).1 = Resolved (mkGroup (JNum i) n).
Proof.
  intros Hi Huniq. unfold getByName, one, bind, query, ret, throw. simpl.
  by rewrite (named_rows_one _ i n Hi Huniq).
Qed.

(** Insert and look up.  After a group with an undefined id and a name that
    no stored group has is inserted, [getByID] of the id it was given and
    [getByName] of its name both resolve with a group equal to the receiver;
    the groups stored before are found as before; and a second insert of the
    receiver is refused without reaching the store. *)
Theorem insert_then_lookup (h : heap database) :
  id (this h) = JUndefined →
  ids_named (groups (store h)) (name (this h)) = [] →
  (getByID run_sql (id (this (insert run_sql h).2)) (insert run_sql h).2).1
  = Resolved (this (insert run_sql h).2) ∧
  (getByName run_sql (name (this h)) (insert run_sql h).2).1
  = Resolved (this (insert run_sql h).2) ∧
  (∀ i n, groups (store h) !! i = Some n →
          (getByID run_sql (JNum i) (insert run_sql h).2).1 = Resolved (mkGroup (JNum i) n)) ∧
  insert run_sql (insert run_sql h).2
  = (Rejected (JsError "Attempt to insert a group that already has an ID"),
     (insert run_sql h).2).
Proof.
  intros Hid Hname.
  assert (insert run_sql h
          = (Resolved (),
             mkHeap (mkGroup (JNum (fresh_id (groups (store h)))) (name (this h)))
               (mkDatabase (<[fresh_id (groups (store h)) := name (this h)]> (groups (store h)))
                  (meters (store h)) (child_groups (store h)) (child_meters (store h)))
               (calls h ++ [mkCall One insert_new_group (Group_obj (this h))]))) as ->.
  { unfold insert, one, bind, query, get_this, set_this_id, ret, throw.
    rewrite decide_False by (by rewrite Hid; intros []). simpl. by rewrite Hname. }
  simpl. pose proof (fresh_id_fresh (groups (store h))) as Hfresh.
  split; [|split; [|split]].
  - rewrite (getByID_stored _ _ (name (this h))); [done|]. simpl. apply lookup_insert_eq.
  - apply getByName_one; simpl; [apply lookup_insert_eq|].
    intros j [[<- _]|[_ Hj]]%lookup_insert_Some; [done|].
    assert (j ∈ ids_named (groups (store h)) (name (this h))) as Hin
      by (by apply elem_of_ids_named).
    rewrite Hname in Hin. by apply elem_of_nil in Hin.
  - intros i n Hi. rewrite (getByID_stored _ i n); [done|]. simpl.
    rewrite lookup_insert_ne; [done|]. intros <-. congruence.
  - by apply insert_assigned_id.
Qed.

Lemma insert_then_lookup_witness :
  (getByName run_sql (JStr "C")
     (insert run_sql (on (mkGroup JUndefined (JStr "C")) db_two)).2).1
  = Resolved (mkGroup (JNum 3) (JStr "C")).
Proof.
  destruct (insert_then_lookup (on (mkGroup JUndefined (JStr "C")) db_two))
    as (_ & Hname & _); [reflexivity|reflexivity|].
  exact Hname.
Defined.

(** Rename and look up.  After a stored group was renamed to a name that no
    other group has, [getByID] of its id and [getByName] of the new name
    resolve with the group under its new name, while the receiver still
    carries the name it had: the in-memory object is stale until it is
    fetched again. *)
Theorem rename_then_lookup (h : heap database) (i : Z) (newName : jsval) :
  id (this h) = JNum i →
  is_Some (groups (store h) !! i) →
  (∀ j, groups (store h) !! j = Some newName → j = i) →
  (getByID run_sql (JNum i) (rename run_sql newName h).2).1
  = Resolved (mkGroup (JNum i) newName) ∧
  (getByName run_sql newName (rename run_sql newName h).2).1
  = Resolved (mkGroup (JNum i) newName) ∧
  this (rename run_sql newName h).2 = this h.
Proof.
  intros Hid [old Hold] Huniq.
  assert (rename run_sql newName h
          = (Resolved (),
             mkHeap (this h)
               (mkDatabase (<[i := newName]> (groups (store h))) (meters (store h))
                  (child_groups (store h)) (child_meters (store h)))
               (calls h ++ [mkCall None_ rename_group [("new_name", newName); ("id", JNum i)]])))
    as ->.
  { unfold rename, none, bind, query, get_this, ret, throw. simpl.
    rewrite Hid. simpl. rewrite Hold.
    by rewrite decide_True by (by apply ids_named_within). }
  simpl. split; [|split; [|done]].
  - rewrite (getByID_stored _ i newName); [done|]. simpl. apply lookup_insert_eq.
  - apply getByName_one; simpl; [apply lookup_insert_eq|].
    intros j [[<- _]|[_ Hj]]%lookup_insert_Some; [done|]. by apply Huniq.
Qed.

Lemma rename_then_lookup_witness :
  (getByID run_sql (JNum 1)
     (rename run_sql (JStr "Z") (on (mkGroup (JNum 1) (JStr "A")) db_two)).2).1
  = Resolved (mkGroup (JNum 1) (JStr "Z")) ∧
  this (rename run_sql (JStr "Z") (on (mkGroup (JNum 1) (JStr "A")) db_two)).2
  = mkGroup (JNum 1) (JStr "A").
Proof.
  destruct (rename_then_lookup (on (mkGroup (JNum 1) (JStr "A")) db_two) 1 (JStr "Z"))
    as (Hid & _ & Hthis).
  - reflexivity.
  - by exists (JStr "A").
  - intros j Hj%elem_of_ids_named. vm_compute in Hj. by apply elem_of_nil in Hj.
  - by split.
Defined.

(** Delete and look up.  After [delete] of an id, [getByID] of that id
    rejects with NotFound and so does every [adoptGroup] of it as a child;
    the other groups are found as before; and a second [delete] of the same
    id changes nothing more. *)
Theorem delete_then_lookup (h : heap database) (groupID : jsval) :
  (getByID run_sql groupID (delete run_sql groupID h).2).1 = Rejected NotFound ∧
  (∀ g cs, (adoptGroup run_sql groupID
              (mkHeap g (store (delete run_sql groupID h).2) cs)).1 = Rejected NotFound) ∧
  (∀ i n, JNum i ≠ groupID → groups (store h) !! i = Some n →
          (getByID run_sql (JNum i) (delete run_sql groupID h).2).1
          = Resolved (mkGroup (JNum i) n)) ∧
  store (delete run_sql groupID (delete run_sql groupID h).2).2
  = store (delete run_sql groupID h).2.
Proof.
  assert (Hgone : has_id (groups (store (delete run_sql groupID h).2)) groupID = false).
  { unfold delete, none, bind, query, ret. simpl.
    destruct groupID as [| |i|]; try done. simpl. apply bool_decide_eq_false.
    rewrite lookup_delete_eq. by intros [? ?]. }
  split; [|split; [|split]].
  - by rewrite getByID_missing.
  - intros g cs. rewrite adoptGroup_run. cbn [store this calls]. by rewrite Hgone.
  - intros i n Hne Hi. rewrite (getByID_stored _ i n); [done|].
    unfold delete, none, bind, query, ret. simpl.
    destruct groupID as [| |j|]; try done. rewrite lookup_delete_ne; [done|congruence].
  - unfold delete, none, bind, query, ret. simpl. f_equal.
    + destruct groupID as [| |j|]; try done. simpl.
      apply map_eq. intros k. rewrite !lookup_delete. by case_decide.
    + unfold purge. apply list_filter_filter_l. tauto.
    + apply list_filter_filter_l. tauto.
Qed.

Lemma delete_then_lookup_witness :
  (getByID run_sql (JNum 2)
     (delete run_sql (JNum 1) (on (mkGroup (JNum 1) (JStr "A")) db_two)).2).1
  = Resolved (mkGroup (JNum 2) (JStr "B")).
Proof.
  apply (delete_then_lookup (on (mkGroup (JNum 1) (JStr "A")) db_two) (JNum 1));
    [discriminate|reflexivity].
Defined.

Lemma getImmediateGroupsByGroupID_run (h : heap database) v :
  (getImmediateGroupsByGroupID run_sql v h).1 = Resolved (children (child_groups (store h)) v).
Proof. unfold getImmediateGroupsByGroupID, any, bind, query, ret. simpl. by rewrite column_prop. Qed.

Lemma getImmediateMetersByGroupID_run (h : heap database) v :
  (getImmediateMetersByGroupID run_sql v h).1 = Resolved (children (child_meters (store h)) v).
Proof. unfold getImmediateMetersByGroupID, any, bind, query, ret. simpl. by rewrite column_prop. Qed.

Lemma getDeepGroupsByGroupID_run (h : heap database) v :
  (getDeepGroupsByGroupID run_sql v h).1 = Resolved (deep_children (child_groups (store h)) v).
Proof. unfold getDeepGroupsByGroupID, any, bind, query, ret. simpl. by rewrite column_prop. Qed.

Lemma getDeepMetersByGroupID_run (h : heap database) v :
  (getDeepMetersByGroupID run_sql v h).1
  = Resolved (remove_dups ((v :: deep_children (child_groups (store h)) v)
                             ≫= children (child_meters (store h)))).
Proof. unfold getDeepMetersByGroupID, any, bind, query, ret. simpl. by rewrite column_prop. Qed.

Lemma getParents_run (h : heap database) :
  (getParents run_sql h).1 = Resolved (parents (child_groups (store h)) (id (this h))).
Proof. unfold getParents, any, bind, query, get_this, ret. simpl. by rewrite column_prop. Qed.

Lemma remove_add_edge {V : Type} `{EqDecision V} (e : V * V) (E : list (V * V)) :
  remove_edge e (add_edge e E) = remove_edge e E.
Proof.
  unfold add_edge. case_decide; [done|]. unfold remove_edge.
  rewrite filter_app, filter_cons_False, filter_nil, app_nil_r; [done|]. by intros [].
Qed.

(** Adopt and query.  After a stored group was adopted as a child, it is
    among the immediate child groups and among the deep child groups of the
    receiver's id, the receiver's id is among the parents of a group with the
    child's id, and every child group the receiver had is still listed. *)
Theorem adoptGroup_then_queries (h : heap database) (childID : jsval) :
  has_id (groups (store h)) childID = true →
  (∃ kids, (getImmediateGroupsByGroupID run_sql (id (this h))
              (adoptGroup run_sql childID h).2).1 = Resolved kids ∧
           childID ∈ kids ∧
           ∀ old, (getImmediateGroupsByGroupID run_sql (id (this h)) h).1 = Resolved old →
                  old ⊆ kids) ∧
  (∃ deep, (getDeepGroupsByGroupID run_sql (id (this h))
              (adoptGroup run_sql childID h).2).1 = Resolved deep ∧
           childID ∈ deep) ∧
  (∀ n cs, ∃ ps, (getParents run_sql
                    (mkHeap (mkGroup childID n)
                       (store (adoptGroup run_sql childID h).2) cs)).1 = Resolved ps ∧
                 id (this h) ∈ ps).
Proof.
  intros Hhas.
  assert (Hedge : edge (child_groups (store (adoptGroup run_sql childID h).2))
                    (id (this h)) childID).
  { rewrite adoptGroup_run, Hhas. simpl. apply elem_of_add_edge. by left. }
  split; [|split].
  - eexists. split; [apply getImmediateGroupsByGroupID_run|].
    split; [by apply elem_of_children|].
    intros old. rewrite getImmediateGroupsByGroupID_run. intros [= <-] x.
    rewrite !elem_of_children. rewrite adoptGroup_run, Hhas. simpl. intros Hx.
    apply elem_of_add_edge. by right.
  - eexists. split; [apply getDeepGroupsByGroupID_run|].
    by apply elem_of_deep_children, tc_once.
  - intros n cs. eexists. split; [apply getParents_run|]. by apply elem_of_parents.
Qed.

Lemma adoptGroup_then_queries_witness :
  ∃ deep, (getDeepGroupsByGroupID run_sql (JNum 2)
             (adoptGroup run_sql (JNum 1) (on (mkGroup (JNum 2) (JStr "B")) db_two)).2).1
          = Resolved deep ∧ JNum 1 ∈ deep.
Proof.
  apply (adoptGroup_then_queries (on (mkGroup (JNum 2) (JStr "B")) db_two) (JNum 1)).
  reflexivity.
Defined.

(** Adopt and disown.  [disownGroup] after [adoptGroup] of the same child
    leaves the store that [disownGroup] alone would leave; when the edge was
    not there before the adoption, that is the store as it was.  The same
    holds for [adoptMeter] and [disownMeter]. *)
Theorem adopt_then_disown (h : heap database) (childID : jsval) :
  (has_id (groups (store h)) childID = true →
   store (disownGroup run_sql childID (adoptGroup run_sql childID h).2).2
   = store (disownGroup run_sql childID h).2 ∧
   ((id (this h), childID) ∉ child_groups (store h) →
    store (disownGroup run_sql childID (adoptGroup run_sql childID h).2).2 = store h)) ∧
  (has_id (meters (store h)) childID = true →
   store (disownMeter run_sql childID (adoptMeter run_sql childID h).2).2
   = store (disownMeter run_sql childID h).2 ∧
   ((id (this h), childID) ∉ child_meters (store h) →
    store (disownMeter run_sql childID (adoptMeter run_sql childID h).2).2 = store h)).
Proof.
  destruct h as [g [gs ms cg cm] cs]. split; intros Hhas.
  - rewrite adoptGroup_run. simpl in *. rewrite Hhas.
    unfold disownGroup, none, bind, query, get_this, ret. simpl.
    rewrite remove_add_edge. split; [done|]. intros Habs. by rewrite remove_edge_absent.
  - rewrite adoptMeter_run. simpl in *. rewrite Hhas.
    unfold disownMeter, none, bind, query, get_this, ret. simpl.
    rewrite remove_add_edge. split; [done|]. intros Habs. by rewrite remove_edge_absent.
Qed.

Lemma adopt_then_disown_witness :
  store (disownGroup run_sql (JNum 1)
           (adoptGroup run_sql (JNum 1) (on (mkGroup (JNum 2) (JStr "B")) db_two)).2).2
  = db_two ∧
  store (disownMeter run_sql (JNum 10)
           (adoptMeter run_sql (JNum 10) (on (mkGroup (JNum 2) (JStr "B")) db_two)).2).2
  = db_two.
Proof.
  destruct (adopt_then_disown (on (mkGroup (JNum 2) (JStr "B")) db_two) (JNum 1))
    as [Hg _].
  destruct (adopt_then_disown (on (mkGroup (JNum 2) (JStr "B")) db_two) (JNum 10))
    as [_ Hm].
  split.
  - apply Hg; [reflexivity|]. by apply (bool_decide_unpack _).
  - apply Hm; [reflexivity|]. by apply (bool_decide_unpack _).
Defined.

(** Immediate and deep children.  Every immediate child group of an id is a
    deep child group of it, and the deep child groups of a deep child group
    of an id are deep child groups of that id. *)
Theorem deep_groups_contain (h : heap database) (a b : jsval) (kids deep deep' : list jsval) :
  (getImmediateGroupsByGroupID run_sql a h).1 = Resolved kids →
  (getDeepGroupsByGroupID run_sql a h).1 = Resolved deep →
  (getDeepGroupsByGroupID run_sql b h).1 = Resolved deep' →
  kids ⊆ deep ∧ (b ∈ deep → deep' ⊆ deep).
Proof.
  rewrite getImmediateGroupsByGroupID_run, !getDeepGroupsByGroupID_run.
  intros [= <-] [= <-] [= <-]. split.
  - intros x Hx%elem_of_children. by apply elem_of_deep_children, tc_once.
  - intros Hb%elem_of_deep_children x Hx%elem_of_deep_children.
    apply elem_of_deep_children. by etrans.
Qed.

Lemma deep_groups_contain_witness :
  [JNum 2; JNum 3] ⊆ [JNum 2; JNum 3; JNum 4] ∧
  (JNum 2 ∈ [JNum 2; JNum 3; JNum 4] → [JNum 4] ⊆ [JNum 2; JNum 3; JNum 4]).
Proof.
  apply (deep_groups_contain (on (mkGroup (JNum 1) (JStr "A")) db_diamond) (JNum 1) (JNum 2));
    reflexivity.
Defined.

Lemma elem_of_deep_meters (h : heap database) v m :
  m ∈ remove_dups ((v :: deep_children (child_groups (store h)) v)
                     ≫= children (child_meters (store h)))
  ↔ ∃ g, rtc (edge (child_groups (store h))) v g ∧ edge (child_meters (store h)) g m.
Proof.
  rewrite elem_of_remove_dups, list_elem_of_bind.
  setoid_rewrite elem_of_children. setoid_rewrite elem_of_cons.
  setoid_rewrite elem_of_deep_children. setoid_rewrite rtc_tc.
  split; intros (g & H1 & H2); exists g; intuition congruence.
Qed.

Lemma rtc_edge_Permutation {V : Type} (E E' : list (V * V)) a b :
  E ≡ₚ E' → rtc (edge E) a b → rtc (edge E') a b.
Proof.
  intros Hperm. apply rtc_congruence with (f := λ x, x). intros x y. unfold edge.
  by rewrite Hperm.
Qed.

(** [getDeepMetersByGroupID] resolves, on every store (cycles and diamonds
    included), with the meters reached from the given id by zero or more
    child-group edges followed by one child-meter edge, each of them once,
    and leaves the store as it was; the deep child meters of every group
    reached from the id are among them; and two stores whose edge relations
    hold the same rows in a different order give the same meters up to their
    order. *)
Theorem getDeepMetersByGroupID_closure (h : heap database) (i : jsval) :
  ∃ ids,
    getDeepMetersByGroupID run_sql i h
    = (Resolved ids,
       mkHeap (this h) (store h)
         (calls h ++ [mkCall Any get_deep_meters_by_group_id [("id", i)]])) ∧
    NoDup ids ∧
    (∀ m, m ∈ ids ↔ ∃ g, rtc (edge (child_groups (store h))) i g ∧
                         edge (child_meters (store h)) g m) ∧
    (∀ g sub, rtc (edge (child_groups (store h))) i g →
              (getDeepMetersByGroupID run_sql g h).1 = Resolved sub → sub ⊆ ids) ∧
    (∀ h' : heap database,
       child_groups (store h) ≡ₚ child_groups (store h') →
       child_meters (store h) ≡ₚ child_meters (store h') →
       ∃ ids', (getDeepMetersByGroupID run_sql i h').1 = Resolved ids' ∧ ids ≡ₚ ids').
Proof.
  exists (remove_dups ((i :: deep_children (child_groups (store h)) i)
                         ≫= children (child_meters (store h)))).
  split; [|split; [apply NoDup_remove_dups|split; [|split]]].
  - unfold getDeepMetersByGroupID, any, bind, query, ret. simpl. by rewrite !column_prop.
  - intros m. apply elem_of_deep_meters.
  - intros g sub Hig Hsub m Hm. rewrite getDeepMetersByGroupID_run in Hsub.
    assert (remove_dups ((g :: deep_children (child_groups (store h)) g)
                           ≫= children (child_meters (store h))) = sub) as Heq
      by congruence.
    rewrite <- Heq in Hm. apply elem_of_deep_meters in Hm as (g' & Hgg' & Hm).
    apply elem_of_deep_meters. exists g'. split; [by etrans|done].
  - intros h' Hg Hm. eexists. split; [apply getDeepMetersByGroupID_run|].
    apply NoDup_Permutation; [apply NoDup_remove_dups..|].
    intros m. rewrite !elem_of_deep_meters.
    split; intros (g & Hig & Hgm); exists g; split.
    + by apply (rtc_edge_Permutation _ _ _ _ Hg).
    + unfold edge. by rewrite <- Hm.
    + by apply (rtc_edge_Permutation (child_groups (store h')) (child_groups (store h))).
    + unfold edge. by rewrite Hm.
Qed.

Lemma getDeepMetersByGroupID_closure_witness :
  ∃ ids, (getDeepMetersByGroupID run_sql (JNum 1)
            (adoptMeter run_sql (JNum 10) (on (mkGroup (JNum 4) (JStr "D")) db_diamond_meter)).2).1
         = Resolved ids ∧
         [JNum 10] ⊆ ids.
Proof.
  destruct (getDeepMetersByGroupID_closure
              (adoptMeter run_sql (JNum 10) (on (mkGroup (JNum 4) (JStr "D")) db_diamond_meter)).2
              (JNum 1))
    as (ids & Hrun & _ & _ & Hsub & _).
  exists ids. split; [by rewrite Hrun|].
  apply (Hsub (JNum 2)); [|reflexivity].
  apply rtc_once. unfold edge. by apply (bool_decide_unpack _).
Defined.

(** A meter adopted by a group is a deep child meter of that group and of
    every group that has it as a deep child group; a meter that is not stored
    is refused with NotFound and the deep child meters are as before. *)
Theorem adoptMeter_seen_by_ancestors (h : heap database) (meterID ancestor : jsval) :
  ancestor = id (this h) ∨ id (this h) ∈ deep_children (child_groups (store h)) ancestor →
  (has_id (meters (store h)) meterID = true →
   ∃ ids, (getDeepMetersByGroupID run_sql ancestor (adoptMeter run_sql meterID h).2).1
          = Resolved ids ∧ meterID ∈ ids) ∧
  (has_id (meters (store h)) meterID = false →
   (adoptMeter run_sql meterID h).1 = Rejected NotFound ∧
   (getDeepMetersByGroupID run_sql ancestor (adoptMeter run_sql meterID h).2).1
   = (getDeepMetersByGroupID run_sql ancestor h).1).
Proof.
  intros Hanc. split; intros Hhas.
  - eexists. split; [apply getDeepMetersByGroupID_run|].
    apply elem_of_deep_meters. exists (id (this h)).
    rewrite adoptMeter_run, Hhas. simpl. split.
    + apply rtc_tc. destruct Hanc as [->|Hd]; [by left|right].
      by apply elem_of_deep_children.
    + apply elem_of_add_edge. by left.
  - rewrite !getDeepMetersByGroupID_run, adoptMeter_run, Hhas. done.
Qed.

Lemma adoptMeter_seen_by_ancestors_witness :
  ∃ ids, (getDeepMetersByGroupID run_sql (JNum 1)
            (adoptMeter run_sql (JNum 10) (on (mkGroup (JNum 2) (JStr "B")) db_two)).2).1
         = Resolved ids ∧ JNum 10 ∈ ids.
Proof.
  apply (adoptMeter_seen_by_ancestors (on (mkGroup (JNum 2) (JStr "B")) db_two)
           (JNum 10) (JNum 1)).
  - right. by apply (bool_decide_unpack _).
  - reflexivity.
Defined.

Lemma getAll_run (h : heap database) :
  getAll run_sql h
  = (Resolved (stored_group <$> map_to_list (groups (store h))),
     mkHeap (this h) (store h) (calls h ++ [mkCall Any get_all_groups []])).
Proof.
  unfold getAll, any, bind, query, ret. simpl. do 2 f_equal.
  induction (map_to_list (groups (store h))) as [|r l IH]; [done|].
  simpl. by rewrite IH.
Qed.

(** [getAll] resolves with the stored groups, each of them once and with the
    id and the name of its row: as many groups as there are rows, the empty
    list on an empty table; and it leaves the store as it was. *)
Theorem getAll_lists_stored_groups (h : heap database) :
  ∃ gs, getAll run_sql h
        = (Resolved gs,
           mkHeap (this h) (store h) (calls h ++ [mkCall Any get_all_groups []])) ∧
        NoDup gs ∧
        length gs = size (groups (store h)) ∧
        (∀ g, g ∈ gs ↔ ∃ i n, groups (store h) !! i = Some n ∧ g = mkGroup (JNum i) n).
Proof.
  exists (stored_group <$> map_to_list (groups (store h))).
  split; [apply getAll_run|]. split; [|split].
  - apply NoDup_fmap_2_strong; [|apply NoDup_map_to_list].
    intros [i n] [j m] _ _ [= -> ->]. done.
  - by rewrite length_fmap, length_map_to_list.
  - intros g. rewrite list_elem_of_fmap. split.
    + intros ([i n] & -> & Hin%elem_of_map_to_list). by exists i, n.
    + intros (i & n & Hin & ->). exists (i, n). split; [done|].
      by apply elem_of_map_to_list.
Qed.

Lemma names_unique_insert (t : gmap Z jsval) i n :
  names_unique t → (∀ j, t !! j = Some n → j = i) → names_unique (<[i := n]> t).
Proof.
  intros Huniq Hn a b m [[<- <-]|[Hai Ha]]%lookup_insert_Some
    [[<- Hm]|[Hbi Hb]]%lookup_insert_Some; try done.
  - symmetry. by apply Hn.
  - subst. by apply Hn.
  - by apply (Huniq a b m).
Qed.

Lemma names_unique_delete (t : gmap Z jsval) i :
  names_unique t → names_unique (base.delete i t).
Proof.
  intros Huniq a b m [_ Ha]%lookup_delete_Some [_ Hb]%lookup_delete_Some.
  by apply (Huniq a b m).
Qed.

(** The group names stay unique: starting from a store in which no two
    groups have the same name, [insert], [rename], [delete] and the adopt and
    disown methods all leave such a store, whether they resolve or reject; and
    on such a store [getByName] never rejects with the multiple-rows error:
    it resolves with the one group of that name or rejects with NotFound. *)
Theorem names_stay_unique (h : heap database) (v : jsval) :
  names_unique (groups (store h)) →
  names_unique (groups (store (insert run_sql h).2)) ∧
  names_unique (groups (store (rename run_sql v h).2)) ∧
  names_unique (groups (store (delete run_sql v h).2)) ∧
  names_unique (groups (store (adoptGroup run_sql v h).2)) ∧
  names_unique (groups (store (adoptMeter run_sql v h).2)) ∧
  names_unique (groups (store (disownGroup run_sql v h).2)) ∧
  names_unique (groups (store (disownMeter run_sql v h).2)) ∧
  ((getByName run_sql v h).1 = Rejected NotFound ∨
   ∃ i, groups (store h) !! i = Some v ∧
        (getByName run_sql v h).1 = Resolved (mkGroup (JNum i) v)).
Proof.
  intros Huniq. repeat split.
  - unfold insert, one, bind, query, get_this, set_this_id, ret, throw.
    case_decide; [done|]. simpl.
    destruct (ids_named (groups (store h)) (name (this h))) as [|j l] eqn:Hn; [|done].
    simpl. apply names_unique_insert; [done|]. intros j Hj%elem_of_ids_named.
    rewrite Hn in Hj. by apply elem_of_nil in Hj.
  - unfold rename, none, bind, query, get_this, ret, throw. simpl.
    destruct (id (this h)) as [| |i|]; try done. simpl.
    destruct (groups (store h) !! i); [|done]. case_decide as Hsub; [|done].
    simpl. apply names_unique_insert; [done|]. by apply ids_named_within.
  - unfold delete, none, bind, query, ret. simpl.
    destruct v as [| |i|]; try done. by apply names_unique_delete.
  - rewrite adoptGroup_run. by destruct (has_id _ _).
  - rewrite adoptMeter_run. by destruct (has_id _ _).
  - unfold disownGroup, none, bind, query, get_this, ret. done.
  - unfold disownMeter, none, bind, query, get_this, ret. done.
  - destruct (ids_named (groups (store h)) v) as [|i l] eqn:Hn.
    + left. unfold getByName, one, bind, query, ret, throw. simpl.
      by rewrite (named_rows_none _ _ Hn).
    + right. exists i.
      assert (groups (store h) !! i = Some v) as Hi.
      { apply elem_of_ids_named. rewrite Hn. left. }
      split; [done|]. apply getByName_one; [done|].
      intros j Hj. by apply (Huniq j i v).
Qed.

Lemma names_stay_unique_witness :
  names_unique
    (groups (store (insert run_sql (on (mkGroup JUndefined (JStr "C")) db_two)).2)) ∧
  names_unique
    (groups (store (rename run_sql (JStr "B") (on (mkGroup (JNum 1) (JStr "A")) db_two)).2)).
Proof.
  assert (names_unique (groups db_two)) as Huniq.
  { intros i j n Hi%elem_of_ids_named Hj%elem_of_ids_named.
    destruct n as [| | |s]; try (vm_compute in Hi; by apply elem_of_nil in Hi).
    assert (groups db_two !! i = Some (JStr s)) as Hi' by (by apply elem_of_ids_named).
    assert (groups db_two !! j = Some (JStr s)) as Hj' by (by apply elem_of_ids_named).
    apply elem_of_map_to_list in Hi', Hj'. vm_compute in Hi', Hj'.
    apply list_elem_of_In in Hi', Hj'. simpl in Hi', Hj'.
    destruct Hi' as [[= <- <-]|[[= <- <-]|[]]], Hj' as [[= <-]|[[= <-]|[]]]; done. }
  split.
  - by apply (names_stay_unique (on (mkGroup JUndefined (JStr "C")) db_two) (JStr "B")).
  - by apply (names_stay_unique (on (mkGroup (JNum 1) (JStr "A")) db_two) (JStr "B")).
Defined.

Lemma acyclic_subrelation {V : Type} `{EqDecision V} (E E' : list (V * V)) :
  (∀ e, e ∈ E' → e ∈ E) → acyclic E → acyclic E'.
Proof.
  intros Hsub Hac v Hv. apply (Hac v).
  revert Hv. apply tc_congruence with (f := λ x, x). intros a b. apply Hsub.
Qed.

(** Only [adoptGroup] can close a cycle: on a store whose child-group
    relation is acyclic, [disownGroup], [delete], [adoptMeter],
    [disownMeter], [insert] and [rename] all leave an acyclic relation,
    whether they resolve or reject; and neither [disownGroup] nor [delete]
    gives any group a deep child group it did not have. *)
Theorem acyclic_kept_without_adoptGroup (h : heap database) (v : jsval) :
  acyclic (child_groups (store h)) →
  acyclic (child_groups (store (disownGroup run_sql v h).2)) ∧
  acyclic (child_groups (store (delete run_sql v h).2)) ∧
  acyclic (child_groups (store (adoptMeter run_sql v h).2)) ∧
  acyclic (child_groups (store (disownMeter run_sql v h).2)) ∧
  acyclic (child_groups (store (insert run_sql h).2)) ∧
  acyclic (child_groups (store (rename run_sql v h).2)) ∧
  (∀ a, deep_children (child_groups (store (disownGroup run_sql v h).2)) a
        ⊆ deep_children (child_groups (store h)) a) ∧
  (∀ a, deep_children (child_groups (store (delete run_sql v h).2)) a
        ⊆ deep_children (child_groups (store h)) a).
Proof.
  intros Hac.
  assert (Hdis : ∀ e, e ∈ child_groups (store (disownGroup run_sql v h).2) →
                      e ∈ child_groups (store h)).
  { unfold disownGroup, none, bind, query, get_this, ret. simpl.
    by intros e [? _]%elem_of_remove_edge. }
  assert (Hdel : ∀ e, e ∈ child_groups (store (delete run_sql v h).2) →
                      e ∈ child_groups (store h)).
  { unfold delete, none, bind, query, ret. simpl. by intros e [? _]%elem_of_purge. }
  split; [by eapply acyclic_subrelation|]. split; [by eapply acyclic_subrelation|].
  split; [rewrite adoptMeter_run; by destruct (has_id _ _)|].
  split; [done|]. split; [|split; [|split]].
  - unfold insert, one, bind, query, get_this, set_this_id, ret, throw.
    case_decide; [done|]. simpl.
    by destruct (ids_named (groups (store h)) (name (this h))).
  - unfold rename, none, bind, query, get_this, ret, throw. simpl.
    destruct (id (this h)) as [| |i|]; try done. simpl.
    destruct (groups (store h) !! i); [|done]. by case_decide.
  - intros a x. rewrite !elem_of_deep_children.
    apply tc_congruence with (f := λ y, y). intros b c. apply Hdis.
  - intros a x. rewrite !elem_of_deep_children.
    apply tc_congruence with (f := λ y, y). intros b c. apply Hdel.
Qed.

Lemma acyclic_kept_without_adoptGroup_witness :
  acyclic (child_groups
             (store (delete run_sql (JNum 2) (on (mkGroup (JNum 1) (JStr "A")) db_diamond)).2)).
Proof.
  apply (acyclic_kept_without_adoptGroup (on (mkGroup (JNum 1) (JStr "A")) db_diamond) (JNum 2)).
  apply acyclicb_acyclic. reflexivity.
Defined.
